(** * AgentSense backfill preprocessor: a shallow embedding of
    [scripts/backfill-prepare.py] and the properties of its noise filter,
    cleaning transform, chunker, memory-file scan and insertion loop.

    Python strings are sequences of Unicode code points; a string is modelled
    as the list of its code points ([N]), so that [len] counts what Python's
    [len] counts.  Python integers are unbounded and are modelled by [Z]. *)

From stdpp Require Import strings gmap list.
From Stdlib Require Import ZArith Lia.

Abbreviation char := N (only parsing).
Abbreviation str := (list N) (only parsing).

(** ** String primitives of the Python runtime used by the script *)

(** A string literal of the source, written with ASCII characters. *)
Definition lit (s : string) : str :=
  map Ascii.N_of_ascii (String.list_ascii_of_string s).

(** Characters that cannot be typed inside a literal here. *)
Definition NL : char := 10%N.       (* "\n" *)
Definition DQUOTE : char := 34%N.   (* the double quote *)
Definition RBRACE : char := 125%N.  (* the closing brace *)

(** [len(s)] *)
Definition len (s : str) : Z := Z.of_nat (length s).

(** Truth value of a string: [if s] holds for the non-empty ones. *)
Definition truthy (s : str) : bool :=
  match s with [] => false | _ :: _ => true end.

(** [c.isspace()] for one code point, the table of CPython's
    [_PyUnicode_IsWhitespace]. *)
Definition isspace (c : char) : bool :=
  ((9 <=? c) && (c <=? 13) || (28 <=? c) && (c <=? 32)
   || (c =? 133) || (c =? 160) || (c =? 5760)
   || (8192 <=? c) && (c <=? 8202)
   || (c =? 8232) || (c =? 8233) || (c =? 8239) || (c =? 8287)
   || (c =? 12288))%N.

(** [s.lstrip()], [s.rstrip()] and [s.strip()] with no argument. *)
Fixpoint lstrip (s : str) : str :=
  match s with
  | [] => []
  | c :: s' => if isspace c then lstrip s' else s
  end.

Definition rstrip (s : str) : str := rev (lstrip (rev s)).

Definition strip (s : str) : str := rstrip (lstrip s).

(** [s.startswith(p)] *)
Fixpoint startswith (s p : str) : bool :=
  match p, s with
  | [], _ => true
  | _ :: _, [] => false
  | a :: p', c :: s' => (a =? c)%N && startswith s' p'
  end.

(** [sub in s]: some position of [s] starts with [sub]. *)
Fixpoint contains (sub s : str) : bool :=
  startswith s sub ||
  match s with
  | [] => false
  | _ :: s' => contains sub s'
  end.

(** [s.find(sub)]: the lowest index where [sub] occurs, if any. *)
Fixpoint find (sub s : str) : option nat :=
  if startswith s sub then Some 0
  else match s with
       | [] => None
       | _ :: s' => S <$> find sub s'
       end.

(** [sep.join(parts)] *)
Fixpoint join (sep : str) (parts : list str) : str :=
  match parts with
  | [] => []
  | p :: rest =>
      match rest with
      | [] => p
      | _ :: _ => p ++ sep ++ join sep rest
      end
  end.

(** The paragraph separator ["\n\n"]. *)
Definition PARA_SEP : str := [NL; NL].

(** [push c parts] puts [c] in front of the first part. *)
Definition push (c : char) (parts : list str) : list str :=
  match parts with
  | [] => [[c]]
  | p :: ps => (c :: p) :: ps
  end.

(** [text.split("\n\n")]: the separators are found from the left and do not
    overlap; the result always has at least one part. *)
Fixpoint split_paragraphs (s : str) : list str :=
  match s with
  | [] => [[]]
  | c :: s' =>
      match s' with
      | [] => [[c]]
      | c' :: rest =>
          if ((c =? NL) && (c' =? NL))%N then [] :: split_paragraphs rest
          else push c (split_paragraphs s')
      end
  end.

(** ** Constants of the script *)

Definition CHUNK_SIZE : Z := 6000.
Definition MIN_MSG_LEN : Z := 80.

(** ** [is_noise] *)

Definition KGC_OPEN : str := lit "<knowledge-graph-context>".
Definition KGC_CLOSE : str := lit "</knowledge-graph-context>".
Definition TOOL_CALL_ID : str := DQUOTE :: lit "toolCallId" ++ [DQUOTE].
Definition NO_REPLY : str := lit "NO_REPLY".
Definition HEARTBEAT_OK : str := lit "HEARTBEAT_OK".

Definition str_eqb (a b : str) : bool := bool_decide (a = b).

(** The four rules of [is_noise], in the order of the source. *)
Definition too_short (text : str) : bool := (len text <? MIN_MSG_LEN)%Z.

Definition tool_call_rule (text : str) : bool :=
  startswith (strip text) (lit "{") && contains TOOL_CALL_ID text.

Definition kgc_tag_rule (text : str) : bool :=
  contains KGC_OPEN (take 100 text).

Definition sentinel_rule (text : str) : bool :=
  let stripped := strip text in
  str_eqb stripped NO_REPLY || str_eqb stripped HEARTBEAT_OK.

Definition is_noise (text : str) : bool :=
  if too_short text then true
  else if tool_call_rule text then true
  else if kgc_tag_rule text then true
  else if sentinel_rule text then true
  else false.

(** ** [clean_text] *)

(** [re.sub(pattern, repl, s)] for a pattern that never matches the empty
    string.  [m s] answers whether the pattern matches at the start of [s] and
    how many characters the match consumes.  The scan goes from the left; a
    match is replaced by [repl] and the scan resumes behind it ([skip] counts
    the characters of the match still to pass over), any other character is
    copied. *)
Fixpoint re_sub_from (m : str -> option nat) (repl : str)
    (skip : nat) (s : str) : str :=
  match s with
  | [] => []
  | c :: s' =>
      match skip with
      | S k => re_sub_from m repl k s'
      | O =>
          match m s with
          | Some (S n) => repl ++ re_sub_from m repl n s'
          | _ => c :: re_sub_from m repl 0 s'
          end
      end
  end.

Definition re_sub (m : str -> option nat) (repl s : str) : str :=
  re_sub_from m repl 0 s.

(** [re.search(pattern, s) is not None] *)
Fixpoint re_search (m : str -> option nat) (s : str) : bool :=
  match s with
  | [] => false
  | _ :: s' =>
      match m s with
      | Some (S _) => true
      | _ => re_search m s'
      end
  end.

(** [open.*?close] with DOTALL: the opening tag, then everything up to and
    including the first closing tag behind it. *)
Definition match_block (opening closing : str) (s : str) : option nat :=
  if startswith s opening then
    match find closing (drop (length opening) s) with
    | Some k => Some (length opening + k + length closing)
    | None => None
    end
  else None.

Fixpoint take_while (p : char -> bool) (s : str) : str :=
  match s with
  | [] => []
  | c :: s' => if p c then c :: take_while p s' else []
  end.

Definition FENCE_OPEN : str := lit "```json" ++ NL :: lit "{".
Definition FENCE_CLOSE : str := RBRACE :: NL :: lit "```".
Definition MESSAGE_ID : str := DQUOTE :: lit "message_id" ++ [DQUOTE].

(** The metadata fence: the opening fence and brace, characters other than
    the closing brace among which the quoted key occurs, then the closing
    brace and fence.  Both [[^}]*] stop at the first closing brace, so the
    body is the longest run without one. *)
Definition match_fence (s : str) : option nat :=
  if startswith s FENCE_OPEN then
    let rest := drop (length FENCE_OPEN) s in
    let body := take_while (fun c => negb (c =? RBRACE)%N) rest in
    if startswith (drop (length body) rest) FENCE_CLOSE
       && contains MESSAGE_ID body
    then Some (length FENCE_OPEN + length body + length FENCE_CLOSE)
    else None
  else None.

(** [\n{3,}]: a longest run of newlines, of three or more. *)
Definition match_newlines (s : str) : option nat :=
  let k := length (take_while (fun c => (c =? NL)%N) s) in
  if 3 <=? k then Some k else None.

Definition FR_OPEN : str := lit "<function_results>".
Definition FR_CLOSE : str := lit "</function_results>".
Definition TOOL_OUTPUT : str := lit "[tool output]".

Definition clean_text (text : str) : str :=
  let text := re_sub (match_block KGC_OPEN KGC_CLOSE) [] text in
  let text := re_sub match_fence [] text in
  let text := re_sub (match_block FR_OPEN FR_CLOSE) TOOL_OUTPUT text in
  let text := re_sub match_newlines PARA_SEP text in
  strip text.

(** ** [chunk_text] *)

(** A chunk is the pair [(text, source)] of the source. *)
Definition chunk : Type := str * str.

(** One turn of the loop over the paragraphs; the state is the list of
    finished chunks and the buffer [current]. *)
Definition chunk_step (source : str) (chunk_size : Z)
    (st : list chunk * str) (para : str) : list chunk * str :=
  let '(chunks, current) := st in
  if (len current + len para + 2 >? chunk_size)%Z && truthy current
  then (chunks ++ [(strip current, source)], para)
  else (chunks, if truthy current then current ++ PARA_SEP ++ para else para).

Definition chunk_text (text source : str) (chunk_size : Z) : list chunk :=
  if (len text <=? chunk_size)%Z then [(text, source)]
  else
    let paragraphs := split_paragraphs text in
    let '(chunks, current) :=
      fold_left (chunk_step source chunk_size) paragraphs ([], []) in
    if truthy (strip current) then chunks ++ [(strip current, source)]
    else chunks.

(** ** [process_memory_files] *)

(** The file system as the scan sees it.  [globbed] holds, pattern by pattern
    and in the order of [patterns], the paths [glob.glob] returns; [read_file]
    is [open(filepath).read()], [None] when it raises; [relpath] is
    [os.path.relpath(filepath, MEMORY_DIR)]. *)
Record memory_fs := {
  globbed : list (list str);
  read_file : str -> option str;
  relpath : str -> str;
}.

(** The body of the [try] for one file: the chunks it adds. *)
Definition memory_file_chunks (fs : memory_fs) (filepath : str) : list chunk :=
  match read_file fs filepath with
  | None => []
  | Some text =>
      if (len (strip text) <? MIN_MSG_LEN)%Z then []
      else
        let source := lit "memory:" ++ relpath fs filepath in
        let text := clean_text text in
        chunk_text text source CHUNK_SIZE
  end.

(** State of the scan: the set [seen_files], the files opened so far in the
    order of the calls to [open], and the list [chunks]. *)
Record scan := {
  seen_files : gset (list N);
  opened : list str;
  scan_chunks : list chunk;
}.

Definition visit (fs : memory_fs) (st : scan) (filepath : str) : scan :=
  if decide (filepath ∈ seen_files st) then st
  else {| seen_files := {[filepath]} ∪ seen_files st;
          opened := opened st ++ [filepath];
          scan_chunks := scan_chunks st ++ memory_file_chunks fs filepath |}.

Definition scan_memory_files (fs : memory_fs) : scan :=
  fold_left (fun st matches => fold_left (visit fs) matches st)
    (globbed fs)
    {| seen_files := ∅; opened := []; scan_chunks := [] |}.

Definition process_memory_files (fs : memory_fs) : list chunk :=
  scan_chunks (scan_memory_files fs).

(** ** [extract_text_from_content] and [process_session_file] *)

(** A value as [json.loads] returns it.  The script never looks at the value
    of a number.  A dict is the list of its items, keys distinct. *)
#[warnings="-register-all"]
Inductive json :=
| JNull
| JBool (b : bool)
| JNum (n : Z)
| JStr (s : str)
| JArr (items : list json)
| JObj (fields : list (str * json)).

(** The exceptions the code of a session line can raise.  [json.loads] raises
    [JSONDecodeError] on text that is not JSON, [ValueError] on an integer
    literal over the digit limit and [RecursionError] on nesting too deep. *)
Inductive exn :=
| JSONDecodeError
| KeyError
| AttributeError
| TypeError
| ValueError
| RecursionError.

Inductive res (A : Type) :=
| Ok (a : A)
| Raise (e : exn).
Arguments Ok {A} a.
Arguments Raise {A} e.

#[global] Instance res_ret : MRet res := fun _ a => Ok a.
#[global] Instance res_bind : MBind res := fun _ _ f m =>
  match m with
  | Ok a => f a
  | Raise e => Raise e
  end.

Fixpoint lookup_field (key : str) (fields : list (str * json)) : option json :=
  match fields with
  | [] => None
  | (k, v) :: rest => if str_eqb k key then Some v else lookup_field key rest
  end.

(** [v.get(key, default)]: only a dict has the method. *)
Definition dict_get (v : json) (key : str) (dflt : json) : res json :=
  match v with
  | JObj fields => Ok (default dflt (lookup_field key fields))
  | _ => Raise AttributeError
  end.

(** [isinstance(item, dict)] and [item.get("type") == "text"], then
    [item.get("text", "")]. *)
Definition text_part (item : json) : option json :=
  match item with
  | JObj fields =>
      match lookup_field (lit "type") fields with
      | Some (JStr t) =>
          if str_eqb t (lit "text")
          then Some (default (JStr []) (lookup_field (lit "text") fields))
          else None
      | _ => None
      end
  | _ => None
  end.

(** The argument of ["\n".join]: every item has to be a string. *)
Fixpoint all_str (texts : list json) : res (list str) :=
  match texts with
  | [] => Ok []
  | JStr s :: rest => rest' ← all_str rest; Ok (s :: rest')
  | _ :: _ => Raise TypeError
  end.

Definition extract_text_from_content (content : json) : res str :=
  match content with
  | JStr s => Ok s
  | JArr items =>
      texts ← all_str (omap text_part items);
      Ok (join [NL] texts)
  | _ => Ok []
  end.

(** A line of the file: what [json.loads] does with it, return a value or
    raise. *)
Definition line : Type := res json.

Definition is_user_or_assistant (role : json) : bool :=
  match role with
  | JStr r => str_eqb r (lit "user") || str_eqb r (lit "assistant")
  | _ => false
  end.

Definition label (role : json) : str :=
  match role with
  | JStr r => if str_eqb r (lit "user") then lit "User" else lit "Assistant"
  | _ => lit "Assistant"
  end.

(** The body of the inner [try]: [Ok (Some m)] appends [m] to [messages],
    [Ok None] goes on to the next line. *)
Definition line_body (l : line) : res (option str) :=
  obj ← l;
  msg ← dict_get obj (lit "message") obj;
  role ← dict_get msg (lit "role") (JStr []);
  if negb (is_user_or_assistant role) then Ok None
  else
    content ← dict_get msg (lit "content") (JStr []);
    text ← extract_text_from_content content;
    if is_noise text then Ok None
    else
      let text := clean_text text in
      if (len text >=? MIN_MSG_LEN)%Z
      then Ok (Some (lit "[" ++ label role ++ lit "]: " ++ text))
      else Ok None.

(** [except (json.JSONDecodeError, KeyError): continue]; any other exception
    leaves the loop. *)
Definition process_line (l : line) : res (option str) :=
  match line_body l with
  | Raise JSONDecodeError | Raise KeyError => Ok None
  | r => r
  end.

Fixpoint session_messages (lines : list line) (messages : list str)
    : res (list str) :=
  match lines with
  | [] => Ok messages
  | l :: rest =>
      r ← process_line l;
      session_messages rest
        (match r with Some m => messages ++ [m] | None => messages end)
  end.

(** [file] is the list of the lines of the file, [None] when opening or
    reading it raises. *)
Definition process_session_file (basename : str) (file : option (list line))
    : list chunk :=
  match file with
  | None => []
  | Some lines =>
      match session_messages lines [] with
      | Raise _ => []
      | Ok [] => []
      | Ok messages =>
          let full_text := join PARA_SEP messages in
          let source := lit "session:" ++ basename in
          chunk_text full_text source CHUNK_SIZE
      end
  end.

(** ** [insert_observations] *)

(** The parameters of the [INSERT] statement. *)
Record row := {
  source : str;
  raw_text : str;
  entities_json : str;
  session_key : str;
}.

(** The store and the clock.  [execute db r] is [db.execute(INSERT ..., r)]:
    the store with the row added, or [None] when it raises, in which case the
    store is as before.  [today i] is what
    [datetime.now().strftime('%Y%m%d')] gives while the row of index [i] is
    built. *)
Record store (DB : Type) := {
  execute : DB -> row -> option DB;
  today : nat -> str;
}.
Arguments execute {DB} _ _ _.
Arguments today {DB} _ _.

(** State of the loop: the store, the counter [inserted], and what happened
    so far: the rows passed to [db.execute], in order, each with [true] when
    the call returned and [false] when it raised, and the number of
    ["Insert error"] lines printed. *)
Record insertion (DB : Type) := {
  db : DB;
  inserted : Z;
  attempted : list (row * bool);
  errors : nat;
}.
Arguments db {DB} _.
Arguments inserted {DB} _.
Arguments attempted {DB} _.
Arguments errors {DB} _.

Definition make_row {DB} (w : store DB) (i : nat) (c : chunk) : row :=
  {| source := lit "backfill:" ++ c.2;
     raw_text := c.1;
     entities_json := [];
     session_key := lit "backfill-" ++ today w i |}.

(** One turn of the loop, for the chunk [(text, source)]. *)
Definition insert_one {DB} (w : store DB) (st : insertion DB) (c : chunk)
    : insertion DB :=
  let r := make_row w (length (attempted st)) c in
  match execute w (db st) r with
  | Some db' =>
      {| db := db'; inserted := inserted st + 1;
         attempted := attempted st ++ [(r, true)]; errors := errors st |}
  | None =>
      {| db := db st; inserted := inserted st;
         attempted := attempted st ++ [(r, false)]; errors := S (errors st) |}
  end.

(** The run after [db = sqlite3.connect(DB_PATH)], up to the final report of
    [inserted]; with [dry_run] the store is not touched at all. *)
Definition insert_observations {DB} (w : store DB) (db0 : DB)
    (chunks : list chunk) (dry_run : bool) : option (insertion DB) :=
  if dry_run then None
  else Some (fold_left (insert_one w) chunks
               {| db := db0; inserted := 0; attempted := []; errors := 0 |}).

(** ** Notions used to state the properties *)

(** The first character, when there is one, is not white space. *)
Definition head_clean (s : str) : Prop :=
  match s with
  | [] => True
  | c :: _ => isspace c = false
  end.

(** A paragraph of plain text: not empty, no white space at either end. *)
Definition plain (p : str) : Prop := p <> [] /\ strip p = p.

(** The texts held by a state of the loop: the finished chunks, then the
    buffer when it holds something. *)
Definition pieces (st : list chunk * str) : list str :=
  map fst st.1 ++ (if truthy st.2 then [st.2] else []).

(** What [chunk_text] returns once the loop is over: the finished chunks and,
    unless it trims to nothing, the buffer. *)
Definition chunk_flush (source : str) (st : list chunk * str) : list chunk :=
  if truthy (strip st.2) then st.1 ++ [(strip st.2, source)] else st.1.

(** [sub] occurs in [s] at index [i]. *)
Definition occurs_at (sub s : str) (i : nat) : Prop :=
  startswith (drop i s) sub = true.

(** The number of newlines [s] starts with. *)
Definition run (s : str) : nat :=
  length (take_while (fun c => (c =? NL)%N) s).

(** What holds of the state all along the scan of the memory files. *)
Definition scan_inv (fs : memory_fs) (st : scan) : Prop :=
  seen_files st = list_to_set (opened st)
  /\ NoDup (opened st)
  /\ scan_chunks st = concat (map (memory_file_chunks fs) (opened st)).




(** The line parses to a record whose message has the role [role] and a
    content from which [extract_text_from_content] gets [text]. *)
Definition line_message (l : line) (role : json) (text : str) : Prop :=
  exists obj msg content,
    l = Ok obj
    /\ dict_get obj (lit "message") obj = Ok msg
    /\ dict_get msg (lit "role") (JStr []) = Ok role
    /\ dict_get msg (lit "content") (JStr []) = Ok content
    /\ extract_text_from_content content = Ok text.

(** The three conditions under which the message of a line is kept, and the
    labelled text it is kept as. *)
Definition kept_as (l : line) (m : str) : Prop :=
  exists role text,
    line_message l role text
    /\ (role = JStr (lit "user") \/ role = JStr (lit "assistant"))
    /\ is_noise text = false
    /\ (MIN_MSG_LEN <= len (clean_text text))%Z
    /\ m = lit "[" ++ label role ++ lit "]: " ++ clean_text text.

(** The characters of [s] that are not white space, in order. *)
Definition visible (s : str) : str :=
  List.filter (fun c => negb (isspace c)) s.

(** The visible characters held by a state of the loop of [chunk_text]. *)
Definition visible_state (st : list chunk * str) : str :=
  concat (map (fun c : chunk => visible c.1) st.1) ++ visible st.2.

(** The number of texts held by a state of the loop. *)
Definition held (st : list chunk * str) : nat :=
  length st.1 + (if truthy st.2 then 1 else 0).

(** A text within the limit, or one paragraph of [paragraphs] trimmed. *)
Definition fits_or_single (chunk_size : Z) (paragraphs : list str)
    (t : str) : Prop :=
  (len t <= chunk_size)%Z \/ exists p, In p paragraphs /\ t = strip p.

(** The number of characters in the texts of a list of chunks, which is what
    [main] reports as the total. *)
Definition total_length (chunks : list chunk) : nat :=
  list_sum (map (fun c : chunk => length c.1) chunks).

(** A content part [{"type": "text", "text": s}]. *)
Definition text_item (s : str) : json :=
  JObj [(lit "type", JStr (lit "text")); (lit "text", JStr s)].

(** A store that takes every row, and one that refuses every row. *)
Definition accepting_store : store (list row) :=
  {| execute := fun rows r => Some (rows ++ [r]);
     today := fun _ => lit "20240101" |}.

Definition refusing_store : store (list row) :=
  {| execute := fun _ _ => None;
     today := fun _ => lit "20240101" |}.

(** The line has no effect on [messages]: [json.loads] raised an exception
    that the inner handler catches, or the record has another role, or its
    text is noise, or its cleaned text is too short. *)
Definition passed_over (l : line) : Prop :=
  l = Raise JSONDecodeError \/ l = Raise KeyError
  \/ exists obj msg role,
       l = Ok obj
       /\ dict_get obj (lit "message") obj = Ok msg
       /\ dict_get msg (lit "role") (JStr []) = Ok role
       /\ (is_user_or_assistant role = false
           \/ exists content text,
                dict_get msg (lit "content") (JStr []) = Ok content
                /\ extract_text_from_content content = Ok text
                /\ (is_noise text = true
                    \/ (len (clean_text text) < MIN_MSG_LEN)%Z)).

(** ** Sample inputs *)


(** A memory directory in which [kb] is a symbolic link to [archive/kb]:
    the first and the fourth pattern return one file under two paths.
    [link_resolve] is [os.path.realpath]. *)
Definition link_resolve (p : str) : str :=
  if str_eqb p (lit "m/kb/a.md") then lit "m/archive/kb/a.md" else p.

Definition link_fs : memory_fs :=
  {| globbed := [[]; [lit "m/kb/a.md"]; []; [lit "m/archive/kb/a.md"]];
     read_file := fun p =>
       if str_eqb (link_resolve p) (lit "m/archive/kb/a.md")
       then Some (repeat 120%N 80) else None;
     relpath := fun p => drop 2 p |}.

(** A memory file that is one knowledge-graph-context block. *)
Definition only_context_block : str :=
  KGC_OPEN ++ repeat 120%N 80 ++ KGC_CLOSE.

Definition only_context_fs : memory_fs :=
  {| globbed := [[lit "m/a.md"]; []; []; []];
     read_file := fun _ => Some only_context_block;
     relpath := fun _ => lit "a.md" |}.

(** A session of four lines: a user message that is kept, a line that does
    not parse, a system message, and an assistant message that is long
    enough when read and too short once cleaned. *)
Definition message_line (role : string) (text : str) : line :=
  Ok (JObj [(lit "message",
               JObj [(lit "role", JStr (lit role));
                     (lit "content", JStr text)])]).

Definition sample_session : list line :=
  [ message_line "user" (repeat 104%N 100);
    Raise JSONDecodeError;
    message_line "system" (repeat 104%N 100);
    message_line "assistant" (lit "done" ++ repeat 32%N 90) ].

(** A batch of three chunks, the second with empty text. *)
Definition sample_batch : list chunk :=
  [(lit "a", lit "s"); ([], lit "s"); (lit "b", lit "s")].

(** * Properties *)

Example chunk_text_ex1 :
  chunk_text (lit "ab " ++ PARA_SEP ++ lit "cd") (lit "s") 4
  = [(lit "ab", lit "s"); (lit "cd", lit "s")].
Proof. vm_compute. reflexivity. Qed.

Example clean_text_ex1 :
  clean_text (lit "  a" ++ [NL;NL;NL;NL] ++ lit "<function_results>x</function_results> b ")
  = lit "a" ++ PARA_SEP ++ lit "[tool output] b".
Proof. vm_compute. reflexivity. Qed.

(** ** Trimming *)

Lemma lstrip_length (s : str) : length (lstrip s) <= length s.
Proof.
  induction s as [|c s IH]; simpl; [lia|].
  destruct (isspace c); simpl; lia.
Qed.

Lemma strip_length (s : str) : length (strip s) <= length s.
Proof.
  unfold strip, rstrip. rewrite length_rev.
  pose proof (lstrip_length (rev (lstrip s))) as H1.
  pose proof (lstrip_length s) as H2.
  rewrite length_rev in H1. lia.
Qed.

Lemma len_strip (s : str) : (len (strip s) <= len s)%Z.
Proof. unfold len. pose proof (strip_length s). lia. Qed.

Lemma lstrip_id_iff (s : str) : lstrip s = s <-> head_clean s.
Proof.
  destruct s as [|c s]; simpl; [tauto|].
  destruct (isspace c) eqn:E; split; intros H; try congruence.
  pose proof (lstrip_length s) as L. rewrite H in L. simpl in L. lia.
Qed.

Lemma strip_id_iff (s : str) :
  strip s = s <-> head_clean s /\ head_clean (rev s).
Proof.
  rewrite <- !lstrip_id_iff. unfold strip, rstrip. split.
  - intros H.
    assert (L : lstrip s = s).
    { pose proof (lstrip_length s) as L1.
      pose proof (lstrip_length (rev (lstrip s))) as L2.
      rewrite length_rev in L2.
      assert (E : length (lstrip s) = length s).
      { apply (f_equal length) in H. rewrite length_rev in H. lia. }
      clear -E. induction s as [|c s IH]; simpl in *; [done|].
      destruct (isspace c); [|done].
      pose proof (lstrip_length s). lia. }
    split; [done|]. rewrite L in H.
    apply (f_equal (@rev _)) in H. by rewrite rev_involutive in H.
  - intros [-> ->]. apply rev_involutive.
Qed.

Lemma head_clean_app (a b : str) : a <> [] -> head_clean a -> head_clean (a ++ b).
Proof. destruct a; simpl; done. Qed.

(** Text whose two ends are clean stays as it is under [strip], whatever is
    in between. *)
Lemma strip_sandwich (a m b : str) :
  a <> [] -> b <> [] -> strip a = a -> strip b = b ->
  strip (a ++ m ++ b) = a ++ m ++ b.
Proof.
  intros Ha Hb [Ha1 _]%strip_id_iff [_ Hb2]%strip_id_iff.
  apply strip_id_iff. split.
  - by apply head_clean_app.
  - rewrite !rev_app_distr, <- app_assoc. apply head_clean_app; [|done].
    intros E. apply (f_equal (@rev _)) in E. rewrite rev_involutive in E. done.
Qed.

(** ** Paragraphs *)

Lemma split_paragraphs_nonempty (s : str) : split_paragraphs s <> [].
Proof.
  destruct s as [|c [|c' rest]]; simpl; try done.
  destruct ((c =? NL)%N && (c' =? NL)%N); [done|].
  unfold push. by destruct (match rest with [] => _ | _ => _ end).
Qed.

Lemma join_push (sep : str) (c : char) (parts : list str) :
  parts <> [] -> join sep (push c parts) = c :: join sep parts.
Proof. destruct parts as [|p [|q ps]]; simpl; done. Qed.

(** Splitting at the separator and joining with it gives the text back. *)
Lemma join_split_paragraphs (s : str) :
  join PARA_SEP (split_paragraphs s) = s.
Proof.
  assert (G : forall n s, length s <= n ->
            join PARA_SEP (split_paragraphs s) = s).
  { clear s. induction n as [|n IH]; intros s Hn.
    - destruct s; simpl in *; [done|lia].
    - destruct s as [|c [|c' rest]]; [done|done|].
      change (split_paragraphs (c :: c' :: rest)) with
        (if ((c =? NL) && (c' =? NL))%N then [] :: split_paragraphs rest
         else push c (split_paragraphs (c' :: rest))).
      destruct ((c =? NL)%N && (c' =? NL)%N) eqn:E.
      + apply andb_true_iff in E as [->%N.eqb_eq ->%N.eqb_eq].
        pose proof (split_paragraphs_nonempty rest) as NE.
        simpl join. destruct (split_paragraphs rest) eqn:Es; [done|].
        rewrite <- Es, IH; [done|simpl in *; lia].
      + rewrite join_push by apply split_paragraphs_nonempty.
        rewrite IH; [done|simpl in *; lia]. }
  by apply (G (length s)).
Qed.

Lemma join_cons (sep p : str) (rest : list str) :
  rest <> [] -> join sep (p :: rest) = p ++ sep ++ join sep rest.
Proof. destruct rest; simpl; done. Qed.

Lemma join_merge (sep a b : str) (l r : list str) :
  join sep (l ++ (a ++ sep ++ b) :: r) = join sep (l ++ a :: b :: r).
Proof.
  induction l as [|x l IH].
  - destruct r as [|y r]; [done|].
    simpl app. rewrite !join_cons by done. by rewrite <- !app_assoc.
  - rewrite <- !app_comm_cons, !join_cons, IH; try done.
    all: by destruct l.
Qed.

Lemma join_length_ge (sep p : str) (l : list str) :
  In p l -> length p <= length (join sep l).
Proof.
  induction l as [|x l IH]; [done|].
  intros [->|Hin].
  - destruct l; simpl; [lia|]. rewrite length_app. lia.
  - destruct l as [|y l]; [done|].
    rewrite join_cons by done. rewrite !length_app.
    specialize (IH Hin). lia.
Qed.

Lemma paragraph_length (text p : str) :
  In p (split_paragraphs text) -> length p <= length text.
Proof.
  intros H. rewrite <- (join_split_paragraphs text).
  by apply join_length_ge.
Qed.

Lemma plain_join (l : list str) :
  l <> [] -> Forall plain l -> plain (join PARA_SEP l).
Proof.
  induction l as [|p l IH]; [done|].
  intros _ HF. inversion HF as [|? ? Hp Hl]; subst.
  destruct l as [|q l]; [done|].
  rewrite join_cons by done.
  destruct Hp as [Hp1 Hp2]. destruct (IH ltac:(done) Hl) as [Hj1 Hj2].
  split; [by destruct p|]. by apply strip_sandwich.
Qed.

(** ** The loop of [chunk_text] *)

Section chunk_loop.
Variables (source : str) (chunk_size : Z).

Local Abbreviation step := (chunk_step source chunk_size).

Lemma chunk_step_eq (chunks : list chunk) (current p : str) :
  step (chunks, current) p
  = if (len current + len p + 2 >? chunk_size)%Z && truthy current
    then (chunks ++ [(strip current, source)], p)
    else (chunks,
          if truthy current then current ++ PARA_SEP ++ p else p).
Proof. reflexivity. Qed.

(** The chunks finished so far are never touched again. *)
Lemma chunk_loop_acc (ps : list str) (chunks : list chunk) (current : str) :
  fold_left step ps (chunks, current)
  = (chunks ++ (fold_left step ps ([], current)).1,
     (fold_left step ps ([], current)).2).
Proof.
  revert chunks current. induction ps as [|p ps IH]; intros chunks current.
  - simpl. by rewrite app_nil_r.
  - cbn [fold_left]. rewrite !chunk_step_eq.
    destruct ((len current + len p + 2 >? chunk_size)%Z && truthy current).
    + rewrite IH. rewrite (IH ([] ++ _)). simpl. by rewrite <- app_assoc.
    + by rewrite IH.
Qed.

(** Paragraphs within the limit give a buffer and chunks within it. *)
Lemma chunk_loop_bound (ps : list str) (chunks : list chunk) (current : str) :
  Forall (fun p => (len p <= chunk_size)%Z) ps ->
  (len current <= chunk_size)%Z ->
  Forall (fun c : chunk => (len c.1 <= chunk_size)%Z) chunks ->
  Forall (fun c : chunk => (len c.1 <= chunk_size)%Z)
    (fold_left step ps (chunks, current)).1
  /\ (len (fold_left step ps (chunks, current)).2 <= chunk_size)%Z.
Proof.
  revert chunks current.
  induction ps as [|p ps IH]; intros chunks current HF Hc Hcs; [done|].
  inversion HF as [|? ? Hp Hps]; subst.
  cbn [fold_left]. rewrite chunk_step_eq.
  destruct ((len current + len p + 2 >? chunk_size)%Z) eqn:E; simpl.
  - destruct (truthy current); simpl.
    + apply IH; try done. apply Forall_app. split; [done|].
      constructor; [|done]. simpl. pose proof (len_strip current). lia.
    + by apply IH.
  - apply IH; try done.
    destruct (truthy current); [|done].
    unfold len in *. rewrite !length_app. simpl. lia.
Qed.

(** Over plain paragraphs the loop only regroups: joined again, the pieces
    are the paragraphs taken in so far. *)
Lemma chunk_loop_pieces (ps : list str) (chunks : list chunk) (current : str) :
  Forall plain ps ->
  current = [] \/ plain current ->
  join PARA_SEP (pieces (fold_left step ps (chunks, current)))
  = join PARA_SEP (pieces (chunks, current) ++ ps)
  /\ ((fold_left step ps (chunks, current)).2 = []
      \/ plain (fold_left step ps (chunks, current)).2).
Proof.
  revert chunks current.
  induction ps as [|p ps IH]; intros chunks current HF Hc.
  - simpl. by rewrite app_nil_r.
  - inversion HF as [|? ? Hp Hps]; subst.
    cbn [fold_left]. rewrite chunk_step_eq.
    assert (Tp : truthy p = true) by (destruct Hp as [? _]; by destruct p).
    destruct ((len current + len p + 2 >? chunk_size)%Z && truthy current) eqn:E.
    + apply andb_true_iff in E as [_ Ht].
      destruct Hc as [->|[Hc1 Hc2]]; [done|].
      destruct (IH (chunks ++ [(strip current, source)]) p Hps (or_intror Hp))
        as [IH1 IH2].
      split; [|done]. rewrite IH1. unfold pieces. simpl.
      rewrite Ht, Tp, Hc2, map_app. simpl.
      by rewrite <- !app_assoc.
    + destruct (truthy current) eqn:Ht.
      * destruct Hc as [->|[Hc1 Hc2]]; [done|].
        assert (G : plain (current ++ PARA_SEP ++ p)).
        { destruct Hp as [Hp1 Hp2]. split; [by destruct current|].
          by apply strip_sandwich. }
        destruct (IH chunks (current ++ PARA_SEP ++ p) Hps (or_intror G))
          as [IH1 IH2].
        assert (T : truthy (current ++ PARA_SEP ++ p) = true)
          by (by destruct current).
        split; [|done]. rewrite IH1. unfold pieces. cbn [fst snd].
        rewrite Ht, T, <- !app_assoc. apply join_merge.
      * destruct current; [|done].
        destruct (IH chunks p Hps (or_intror Hp)) as [IH1 IH2].
        split; [|done]. rewrite IH1. unfold pieces. simpl.
        rewrite Tp. by rewrite <- !app_assoc.
Qed.
End chunk_loop.

Lemma startswith_length (s p : str) :
  startswith s p = true -> length p <= length s.
Proof.
  revert s. induction p as [|a p IH]; intros [|c s]; simpl; try done; try lia.
  intros [_ H]%andb_true_iff. specialize (IH _ H). lia.
Qed.

Lemma contains_length (sub s : str) :
  contains sub s = true -> length sub <= length s.
Proof.
  induction s as [|c s IH].
  - destruct sub; simpl; [lia|done].
  - change (contains sub (c :: s))
      with (startswith (c :: s) sub || contains sub s).
    intros [H|H]%orb_true_iff.
    + by apply startswith_length in H.
    + specialize (IH H). simpl. lia.
Qed.

Lemma chunk_text_eq (text source : str) (chunk_size : Z) :
  chunk_text text source chunk_size
  = if (len text <=? chunk_size)%Z then [(text, source)]
    else chunk_flush source
           (fold_left (chunk_step source chunk_size)
              (split_paragraphs text) ([], [])).
Proof.
  unfold chunk_text, chunk_flush.
  destruct (len text <=? chunk_size)%Z; [done|].
  by destruct (fold_left _ _ _).
Qed.

Lemma truthy_plain (p : str) : plain p -> truthy p = true.
Proof. intros [H _]. by destruct p. Qed.

(** Behind an oversized plain paragraph in the buffer: it is flushed as it
    is, and what follows stays within the limit. *)
Lemma chunk_loop_after_oversized (source para : str) (chunk_size : Z)
    (after : list str) (A : list chunk) :
  plain para -> (len para > chunk_size)%Z ->
  Forall (fun p => (len p <= chunk_size)%Z) after ->
  exists B,
    chunk_flush source (fold_left (chunk_step source chunk_size) after (A, para))
    = A ++ (para, source) :: B
    /\ Forall (fun c : chunk => (len c.1 <= chunk_size)%Z) B
    /\ (after = [] -> B = []).
Proof.
  intros Hp Hl HA. pose proof (truthy_plain _ Hp) as Tp.
  destruct Hp as [Hne Hs].
  destruct after as [|q after].
  - exists []. split; [|done]. unfold chunk_flush. simpl.
    by rewrite Hs, Tp.
  - inversion HA as [|? ? Hq Hafter]; subst.
    cbn [fold_left]. rewrite chunk_step_eq, Tp.
    assert (E : (len para + len q + 2 >? chunk_size)%Z = true).
    { apply Z.gtb_lt. unfold len in *. lia. }
    rewrite E. cbn [andb]. rewrite chunk_loop_acc, Hs.
    destruct (chunk_loop_bound source chunk_size after [] q Hafter Hq
                (List.Forall_nil _)) as [B1 B2].
    destruct (fold_left _ after ([], q)) as [chunks current].
    cbn [fst snd] in *. unfold chunk_flush. cbn [fst snd].
    destruct (truthy (strip current)).
    + exists (chunks ++ [(strip current, source)]).
      split; [by rewrite <- !app_assoc|]. split; [|done].
      apply Forall_app. split; [done|]. constructor; [|done].
      cbn [fst]. pose proof (len_strip current). lia.
    + exists chunks. split; [by rewrite <- !app_assoc|done].
Qed.

(** ** [chunk_text] *)

(** C2, as amended: a text no longer than the limit comes back as exactly one
    chunk whose text is the input itself, unchanged; that chunk is the trimmed
    input exactly when the input has no white space at either end. *)
Theorem chunk_text_short (text source : str) (chunk_size : Z) :
  (len text <= chunk_size)%Z ->
  chunk_text text source chunk_size = [(text, source)]
  /\ (chunk_text text source chunk_size = [(strip text, source)]
      <-> strip text = text).
Proof.
  intros H. unfold chunk_text.
  apply Z.leb_le in H. rewrite H. split; [done|].
  split; [congruence|]. by intros ->.
Qed.

Lemma chunk_text_short_witness :
  (len (lit "note") <= 6000)%Z
  /\ chunk_text (lit "note") (lit "memory:a.md") 6000
     = [(lit "note", lit "memory:a.md")].
Proof.
  assert (H : (len (lit "note") <= 6000)%Z) by (vm_compute; discriminate).
  split; [exact H|].
  exact (proj1 (chunk_text_short (lit "note") (lit "memory:a.md") 6000 H)).
Defined.

(** C2 as stated fails: a short text with a leading blank is returned with
    the blank. *)
Lemma chunk_text_short_untrimmed :
  (len (lit " a") <= 6000)%Z
  /\ chunk_text (lit " a") (lit "s") 6000 = [(lit " a", lit "s")]
  /\ chunk_text (lit " a") (lit "s") 6000 <> [(strip (lit " a"), lit "s")].
Proof. split; [done|]. split; [done|]. vm_compute. discriminate. Qed.

(** C10: the empty text under a non-negative limit gives one chunk with empty
    text, so a memory file long enough when read and empty once cleaned adds
    one empty chunk. *)
Theorem chunk_text_empty :
  (forall (source : str) (chunk_size : Z),
      (0 <= chunk_size)%Z -> chunk_text [] source chunk_size = [([], source)])
  /\ (forall (fs : memory_fs) (filepath text : str),
         read_file fs filepath = Some text ->
         (MIN_MSG_LEN <= len (strip text))%Z ->
         clean_text text = [] ->
         memory_file_chunks fs filepath
         = [([], lit "memory:" ++ relpath fs filepath)]).
Proof.
  split.
  - intros source chunk_size H. unfold chunk_text.
    change (len []) with 0%Z. apply Z.leb_le in H. by rewrite H.
  - intros fs filepath text Hr Hl Hc. unfold memory_file_chunks.
    rewrite Hr. apply Z.ltb_ge in Hl. rewrite Hl, Hc. done.
Qed.

Lemma chunk_text_empty_witness :
  chunk_text [] (lit "s") 0 = [([], lit "s")]
  /\ memory_file_chunks only_context_fs (lit "m/a.md")
     = [([], lit "memory:a.md")]
  /\ process_memory_files only_context_fs = [([], lit "memory:a.md")].
Proof.
  destruct chunk_text_empty as [H1 H2].
  split; [by apply H1|]. split.
  - apply (H2 only_context_fs (lit "m/a.md") only_context_block).
    + reflexivity.
    + vm_compute. discriminate.
    + vm_compute. reflexivity.
  - vm_compute. reflexivity.
Defined.

(** C1, as amended: when no paragraph exceeds the limit, no chunk does; and
    when moreover every paragraph is non-empty and has no white space at
    either end, the chunks joined by the paragraph separator are the input,
    which is then its own trimmed form. *)
Theorem chunk_text_bounded_rejoin (text source : str) (chunk_size : Z) :
  Forall (fun p => (len p <= chunk_size)%Z) (split_paragraphs text) ->
  Forall (fun c : chunk => (len c.1 <= chunk_size)%Z)
    (chunk_text text source chunk_size)
  /\ (Forall plain (split_paragraphs text) ->
      join PARA_SEP (map fst (chunk_text text source chunk_size)) = strip text
      /\ strip text = text).
Proof.
  intros HF. unfold chunk_text.
  destruct (len text <=? chunk_size)%Z eqn:E.
  - apply Z.leb_le in E. split; [by repeat constructor|].
    intros HP. simpl.
    pose proof (plain_join _ (split_paragraphs_nonempty text) HP) as [_ G].
    rewrite join_split_paragraphs in G. by rewrite G.
  - assert (H0 : (len [] <= chunk_size)%Z).
    { pose proof (split_paragraphs_nonempty text) as NE.
      destruct (split_paragraphs text) as [|p ps]; [done|].
      inversion HF; subst. unfold len in *. simpl. lia. }
    pose proof (chunk_loop_bound source chunk_size _ [] [] HF H0 (List.Forall_nil _))
      as [B1 B2].
    split.
    + destruct (fold_left _ _ _) as [chunks current]. simpl in *.
      destruct (truthy (strip current)); [|done].
      apply Forall_app. split; [done|]. constructor; [|done].
      simpl. pose proof (len_strip current). lia.
    + intros HP.
      pose proof (plain_join _ (split_paragraphs_nonempty text) HP) as [_ G].
      rewrite join_split_paragraphs in G. split; [|done]. rewrite G.
      pose proof (chunk_loop_pieces source chunk_size _ [] [] HP (or_introl eq_refl))
        as [P1 P2].
      destruct (fold_left _ _ _) as [chunks current].
      unfold pieces in P1. simpl in P1, P2.
      rewrite join_split_paragraphs in P1. rewrite <- P1.
      destruct P2 as [->|[P2 P3]].
      * simpl. by rewrite app_nil_r.
      * rewrite P3. destruct current; [done|]. simpl.
        by rewrite map_app.
Qed.

Lemma chunk_text_bounded_rejoin_witness :
  let text := lit "ab" ++ PARA_SEP ++ lit "cd" ++ PARA_SEP ++ lit "e" in
  chunk_text text (lit "s") 6
  = [(lit "ab" ++ PARA_SEP ++ lit "cd", lit "s"); (lit "e", lit "s")]
  /\ Forall (fun c : chunk => (len c.1 <= 6)%Z) (chunk_text text (lit "s") 6)
  /\ join PARA_SEP (map fst (chunk_text text (lit "s") 6)) = strip text.
Proof.
  intros text. split; [vm_compute; reflexivity|].
  assert (HF : Forall (fun p => (len p <= 6)%Z) (split_paragraphs text)).
  { vm_compute. repeat constructor; discriminate. }
  destruct (chunk_text_bounded_rejoin text (lit "s") 6 HF) as [H1 H2].
  split; [exact H1|].
  apply H2. vm_compute. repeat constructor; discriminate.
Defined.

(** C1 as stated fails: white space next to a paragraph break is lost when
    the break becomes a chunk boundary. *)
Lemma chunk_text_rejoin_loses_blank :
  let text := lit "ab " ++ PARA_SEP ++ lit "cd" in
  Forall (fun p => (len p <= 4)%Z) (split_paragraphs text)
  /\ join PARA_SEP (map fst (chunk_text text (lit "s") 4)) <> strip text.
Proof.
  intros text. split.
  - vm_compute. repeat constructor; discriminate.
  - vm_compute. discriminate.
Qed.

(** C3, as amended: a non-empty paragraph with no white space at either end
    whose length exceeds the limit, the other paragraphs being within it, is
    not split: it is the text of one chunk of its own, longer than the limit,
    and every other chunk is within the limit and so does not contain it. *)
Theorem chunk_text_oversized_paragraph (text source para : str)
    (before after : list str) (chunk_size : Z) :
  split_paragraphs text = before ++ para :: after ->
  (len para > chunk_size)%Z ->
  plain para ->
  Forall (fun p => (len p <= chunk_size)%Z) before ->
  Forall (fun p => (len p <= chunk_size)%Z) after ->
  exists A B,
    chunk_text text source chunk_size = A ++ (para, source) :: B
    /\ Forall (fun c : chunk =>
                 (len c.1 <= chunk_size)%Z /\ contains para c.1 = false)
         (A ++ B)
    /\ (before = [] -> after = [] -> A = [] /\ B = []).
Proof.
  intros Hsplit Hl Hp HB HA.
  assert (G : exists A B,
    chunk_text text source chunk_size = A ++ (para, source) :: B
    /\ Forall (fun c : chunk => (len c.1 <= chunk_size)%Z) (A ++ B)
    /\ (before = [] -> after = [] -> A = [] /\ B = [])).
  { rewrite chunk_text_eq.
    assert (E : (len text <=? chunk_size)%Z = false).
    { apply Z.leb_gt.
      assert (Hin : In para (split_paragraphs text)).
      { rewrite Hsplit. apply in_or_app. right. by left. }
      apply paragraph_length in Hin. unfold len in *. lia. }
    rewrite E, Hsplit, fold_left_app. cbn [fold_left].
    assert (S1 : exists A,
      chunk_step source chunk_size
        (fold_left (chunk_step source chunk_size) before ([], [])) para
      = (A, para)
      /\ Forall (fun c : chunk => (len c.1 <= chunk_size)%Z) A
      /\ (before = [] -> A = [])).
    { destruct before as [|b before].
      - exists []. cbn [fold_left]. rewrite chunk_step_eq.
        cbn [truthy]. by rewrite andb_false_r.
      - assert (H0 : (len [] <= chunk_size)%Z).
        { inversion HB; subst. unfold len in *. simpl. lia. }
        destruct (chunk_loop_bound source chunk_size _ [] [] HB H0
                    (List.Forall_nil _)) as [B1 B2].
        destruct (fold_left _ (b :: before) _) as [chunks current].
        cbn [fst snd] in *. rewrite chunk_step_eq.
        assert (E2 : (len current + len para + 2 >? chunk_size)%Z = true).
        { apply Z.gtb_lt. unfold len in *. lia. }
        rewrite E2. cbn [andb]. destruct (truthy current).
        + exists (chunks ++ [(strip current, source)]).
          split; [done|]. split; [|done].
          apply Forall_app. split; [done|]. constructor; [|done].
          cbn [fst]. pose proof (len_strip current). lia.
        + by exists chunks. }
    destruct S1 as (A & -> & FA & HA0).
    destruct (chunk_loop_after_oversized source para chunk_size after A Hp Hl HA)
      as (B & -> & FB & HB0).
    exists A, B. split; [done|]. split; [by apply Forall_app|].
    intros Hb Ha. split; [by apply HA0|by apply HB0]. }
  destruct G as (A & B & G1 & G2 & G3).
  exists A, B. split; [done|]. split; [|done].
  eapply Forall_impl; [exact G2|]. intros c Hc. split; [done|].
  destruct (contains para c.1) eqn:Ec; [|done].
  apply contains_length in Ec. unfold len in *. lia.
Qed.

Lemma chunk_text_oversized_paragraph_witness :
  let text := lit "ab" ++ PARA_SEP ++ lit "cdefgh" ++ PARA_SEP ++ lit "ij" in
  chunk_text text (lit "s") 4
  = [(lit "ab", lit "s"); (lit "cdefgh", lit "s"); (lit "ij", lit "s")]
  /\ exists A B,
       chunk_text text (lit "s") 4 = A ++ (lit "cdefgh", lit "s") :: B
       /\ Forall (fun c : chunk =>
                    (len c.1 <= 4)%Z /\ contains (lit "cdefgh") c.1 = false)
            (A ++ B)
       /\ ([lit "ab"] = [] -> [lit "ij"] = [] -> A = [] /\ B = []).
Proof.
  intros text. split; [vm_compute; reflexivity|].
  apply (chunk_text_oversized_paragraph text (lit "s") (lit "cdefgh")
           [lit "ab"] [lit "ij"] 4).
  - vm_compute. reflexivity.
  - vm_compute. reflexivity.
  - split; [discriminate|vm_compute; reflexivity].
  - repeat constructor. vm_compute. discriminate.
  - repeat constructor. vm_compute. discriminate.
Defined.

(** C3 as stated fails: an oversized paragraph that starts with a blank is
    emitted without it, so the paragraph is in no chunk as it was, and here
    the chunk it becomes is not longer than the limit. *)
Lemma chunk_text_oversized_blank_edge :
  let text := lit " aaaa" in
  split_paragraphs text = [text]
  /\ (len text > 4)%Z
  /\ chunk_text text (lit "s") 4 = [(lit "aaaa", lit "s")]
  /\ Forall (fun c : chunk => contains text c.1 = false /\ ~ (len c.1 > 4)%Z)
       (chunk_text text (lit "s") 4).
Proof.
  intros text.
  assert (E : chunk_text text (lit "s") 4 = [(lit "aaaa", lit "s")])
    by (vm_compute; reflexivity).
  rewrite E. repeat split; try (vm_compute; reflexivity).
  apply Forall_cons_2; [|apply List.Forall_nil].
  split; [vm_compute; reflexivity|]. vm_compute. discriminate.
Qed.




(** ** [is_noise] *)

Lemma contains_cons (sub s : str) (c : char) :
  contains sub (c :: s) = startswith (c :: s) sub || contains sub s.
Proof. reflexivity. Qed.

Lemma occurs_contains (sub s : str) (i : nat) :
  occurs_at sub s i -> contains sub s = true.
Proof.
  unfold occurs_at. revert i. induction s as [|c s IH]; intros i H.
  - rewrite drop_nil in H. destruct sub; simpl in *; done.
  - rewrite contains_cons. apply orb_true_iff.
    destruct i as [|i]; [by left|]. right. by apply (IH i).
Qed.

Lemma contains_occurs (sub s : str) :
  contains sub s = true ->
  exists i, occurs_at sub s i /\ i + length sub <= length s.
Proof.
  unfold occurs_at. induction s as [|c s IH].
  - destruct sub; [|done]. intros _. by exists 0.
  - rewrite contains_cons. intros [H|H]%orb_true_iff.
    + exists 0. split; [done|]. by apply startswith_length in H.
    + destruct (IH H) as (i & Hi & Hl). exists (S i). split; [done|].
      simpl. lia.
Qed.

Lemma startswith_take (s p : str) (k : nat) :
  length p <= k -> startswith (take k s) p = startswith s p.
Proof.
  revert s k. induction p as [|a p IH]; intros s k Hk.
  - by destruct (take k s), s.
  - destruct k as [|k]; [simpl in Hk; lia|].
    destruct s as [|c s]; [done|]. simpl.
    rewrite IH; [done|]. simpl in Hk. lia.
Qed.

Lemma occurs_at_take (sub s : str) (i n : nat) :
  i + length sub <= n ->
  occurs_at sub (take n s) i <-> occurs_at sub s i.
Proof.
  intros H. unfold occurs_at.
  rewrite skipn_firstn_comm, startswith_take by lia. done.
Qed.

(** C5: [is_noise] holds for every text of 79 characters, for every text
    that trims to one of the two sentinels, and for every text in which the
    opening knowledge-graph-context tag lies within the first 100 characters;
    the rule of the tag does not fire on a text in which the tag occurs at
    index 150 and nowhere else. *)
Theorem is_noise_rules :
  (forall text : str, length text = 79 -> is_noise text = true)
  /\ (forall text : str,
         strip text = NO_REPLY \/ strip text = HEARTBEAT_OK ->
         is_noise text = true)
  /\ (forall (text : str) (i : nat),
         occurs_at KGC_OPEN text i -> i + length KGC_OPEN <= 100 ->
         is_noise text = true)
  /\ (forall text : str,
         occurs_at KGC_OPEN text 150 ->
         (forall i, occurs_at KGC_OPEN text i -> i = 150) ->
         kgc_tag_rule text = false).
Proof.
  repeat split.
  - intros text H. unfold is_noise, too_short, len. rewrite H. done.
  - intros text H. unfold is_noise.
    assert (S : sentinel_rule text = true).
    { unfold sentinel_rule, str_eqb. apply orb_true_iff.
      destruct H as [H|H]; [left|right]; by apply bool_decide_eq_true_2. }
    rewrite S.
    by destruct (too_short text), (tool_call_rule text), (kgc_tag_rule text).
  - intros text i H Hi. unfold is_noise.
    assert (K : kgc_tag_rule text = true).
    { unfold kgc_tag_rule. apply (occurs_contains _ _ i).
      by apply occurs_at_take. }
    rewrite K. by destruct (too_short text), (tool_call_rule text).
  - intros text _ H. unfold kgc_tag_rule.
    destruct (contains KGC_OPEN (take 100 text)) eqn:E; [|done].
    apply contains_occurs in E as (i & Hi & Hl).
    rewrite length_take in Hl.
    apply occurs_at_take in Hi; [|lia].
    apply H in Hi. lia.
Qed.

Lemma is_noise_rules_witness :
  is_noise (repeat 120%N 79) = true
  /\ is_noise (lit "  NO_REPLY " ++ [NL]) = true
  /\ is_noise (lit "HEARTBEAT_OK") = true
  /\ is_noise (repeat 120%N 50 ++ KGC_OPEN ++ repeat 120%N 30) = true
  /\ kgc_tag_rule (repeat 120%N 150 ++ KGC_OPEN) = false
  /\ is_noise (repeat 120%N 150 ++ KGC_OPEN) = false.
Proof.
  destruct is_noise_rules as (H1 & H2 & H3 & H4).
  split; [apply H1; reflexivity|].
  split; [apply H2; left; vm_compute; reflexivity|].
  split; [apply H2; right; vm_compute; reflexivity|].
  split; [apply (H3 _ 50); [vm_compute; reflexivity|vm_compute; lia]|].
  split; [|vm_compute; reflexivity].
  apply H4; [vm_compute; reflexivity|].
  intros i Hi. unfold occurs_at in Hi.
  destruct (decide (i < 150)) as [Hlt|Hge].
  - exfalso. revert Hi. clear -Hlt.
    do 150 (destruct i as [|i]; [vm_compute; discriminate|]). lia.
  - destruct (decide (i = 150)) as [->|Hne]; [done|]. exfalso.
    assert (L : length KGC_OPEN <=
                length (drop i (repeat 120%N 150 ++ KGC_OPEN)))
      by (by apply startswith_length).
    rewrite length_drop, length_app, repeat_length in L.
    change (length KGC_OPEN) with 25 in L. lia.
Defined.

(** ** [clean_text] *)

Section re_sub.
Variables (m : str -> option nat) (repl : str).

Lemma re_sub_from_skip (s : str) (k : nat) :
  re_sub_from m repl k s = re_sub m repl (drop k s).
Proof.
  unfold re_sub. revert k. induction s as [|c s IH]; intros k.
  - by rewrite drop_nil.
  - destruct k as [|k]; [done|]. simpl. apply IH.
Qed.

(** The scan, one step at a time. *)
Lemma re_sub_cons (c : char) (s : str) :
  re_sub m repl (c :: s)
  = match m (c :: s) with
    | Some (S n) => repl ++ re_sub m repl (drop n s)
    | _ => c :: re_sub m repl s
    end.
Proof.
  unfold re_sub at 1. simpl.
  destruct (m (c :: s)) as [[|n]|]; try done.
  by rewrite re_sub_from_skip.
Qed.

(** Where the pattern matches nowhere, nothing is replaced. *)
Lemma re_sub_no_match (s : str) :
  re_search m s = false -> re_sub m repl s = s.
Proof.
  induction s as [|c s IH]; [done|].
  rewrite re_sub_cons. simpl.
  destruct (m (c :: s)) as [[|n]|]; try done.
  all: intros H; by rewrite IH.
Qed.

Lemma re_search_tail (c : char) (s : str) :
  re_search m (c :: s) = false -> re_search m s = false.
Proof. simpl. by destruct (m (c :: s)) as [[|n]|]. Qed.

Lemma re_search_suffix (w s : str) :
  re_search m (w ++ s) = false -> re_search m s = false.
Proof.
  induction w as [|c w IH]; [done|].
  intros H. apply IH. by apply (re_search_tail c).
Qed.
End re_sub.

Lemma lstrip_suffix (s : str) : exists w, s = w ++ lstrip s.
Proof.
  induction s as [|c s [w IH]]; [by exists []|]. simpl.
  destruct (isspace c); [|by exists []].
  exists (c :: w). simpl. by rewrite <- IH.
Qed.

Lemma rstrip_prefix (s : str) : exists w, s = rstrip s ++ w.
Proof.
  unfold rstrip. destruct (lstrip_suffix (rev s)) as [w Hw].
  exists (rev w). rewrite <- rev_app_distr, <- Hw. by rewrite rev_involutive.
Qed.

Lemma lstrip_head_clean (s : str) : head_clean (lstrip s).
Proof.
  induction s as [|c s IH]; [done|]. simpl.
  by destruct (isspace c) eqn:E.
Qed.

Lemma strip_idempotent (s : str) : strip (strip s) = strip s.
Proof.
  apply strip_id_iff. split.
  - unfold strip. destruct (rstrip_prefix (lstrip s)) as [w Hw].
    pose proof (lstrip_head_clean s) as H. rewrite Hw in H.
    by destruct (rstrip (lstrip s)).
  - unfold strip, rstrip. rewrite rev_involutive. apply lstrip_head_clean.
Qed.

Lemma match_newlines_eq (s : str) :
  match_newlines s = if 3 <=? run s then Some (run s) else None.
Proof. reflexivity. Qed.

Lemma run_cons (c : char) (s : str) :
  run (c :: s) = if (c =? NL)%N then S (run s) else 0.
Proof. unfold run. simpl. by destruct (c =? NL)%N. Qed.

Lemma run_app_le (p q : str) : run p <= run (p ++ q).
Proof.
  induction p as [|c p IH]; [unfold run; simpl; lia|].
  rewrite <- app_comm_cons, !run_cons. destruct (c =? NL)%N; lia.
Qed.

(** Behind a longest run of newlines there is no newline. *)
Lemma run_drop_run (s : str) : run (drop (run s) s) = 0.
Proof.
  induction s as [|c s IH]; [done|].
  rewrite run_cons. destruct (c =? NL)%N eqn:E; [done|].
  simpl. rewrite run_cons. by rewrite E.
Qed.

Lemma re_search_newlines_cons (c : char) (s : str) :
  re_search match_newlines (c :: s)
  = (3 <=? run (c :: s)) || re_search match_newlines s.
Proof.
  simpl re_search. rewrite match_newlines_eq.
  destruct (3 <=? run (c :: s)) eqn:E; [|done].
  apply Nat.leb_le in E. destruct (run (c :: s)); [lia|done].
Qed.

Lemma re_search_newlines_prefix (p q : str) :
  re_search match_newlines (p ++ q) = false ->
  re_search match_newlines p = false.
Proof.
  induction p as [|c p IH]; [done|].
  rewrite <- app_comm_cons, !re_search_newlines_cons.
  intros [H1 H2]%orb_false_iff. apply orb_false_iff. split; [|by apply IH].
  apply Nat.leb_gt. apply Nat.leb_gt in H1.
  pose proof (run_app_le (c :: p) q). simpl in *. lia.
Qed.

Lemma re_search_newlines_strip (s : str) :
  re_search match_newlines s = false ->
  re_search match_newlines (strip s) = false.
Proof.
  intros H. unfold strip.
  destruct (rstrip_prefix (lstrip s)) as [w Hw].
  apply (re_search_newlines_prefix _ w). rewrite <- Hw.
  destruct (lstrip_suffix s) as [v Hv].
  apply (re_search_suffix _ v). by rewrite <- Hv.
Qed.

(** After the newlines are collapsed no run of three is left, and the text
    starts with as many newlines as before, up to two. *)
Lemma collapse_newlines_settled (s : str) :
  re_search match_newlines (re_sub match_newlines PARA_SEP s) = false
  /\ run (re_sub match_newlines PARA_SEP s) = Nat.min (run s) 2.
Proof.
  assert (G : forall n s, length s <= n ->
    re_search match_newlines (re_sub match_newlines PARA_SEP s) = false
    /\ run (re_sub match_newlines PARA_SEP s) = Nat.min (run s) 2).
  { clear s. induction n as [|n IH]; intros s Hn.
    - destruct s; [done|simpl in Hn; lia].
    - destruct s as [|c s]; [done|].
      rewrite re_sub_cons, match_newlines_eq.
      destruct (3 <=? run (c :: s)) eqn:E.
      + apply Nat.leb_le in E.
        destruct (run (c :: s)) as [|k] eqn:Ek; [lia|].
        assert (Hd : drop k s = drop (run (c :: s)) (c :: s))
          by (by rewrite Ek).
        destruct (IH (drop k s)) as [I1 I2].
        { rewrite length_drop. simpl in Hn. lia. }
        rewrite Hd, run_drop_run in I2. rewrite Hd in I1. rewrite Hd.
        set (t := re_sub match_newlines PARA_SEP _) in *.
        unfold PARA_SEP. simpl app.
        rewrite !re_search_newlines_cons, !run_cons, I1, I2. simpl.
        split; [done|lia].
      + apply Nat.leb_gt in E.
        destruct (IH s) as [I1 I2]; [simpl in Hn; lia|].
        assert (R : run (c :: re_sub match_newlines PARA_SEP s) = run (c :: s)).
        { rewrite !run_cons in *. destruct (c =? NL)%N; lia. }
        rewrite re_search_newlines_cons, R, I1.
        split; [apply orb_false_iff; split; [by apply Nat.leb_gt|done]|lia]. }
  by apply (G (length s)).
Qed.

(** C4, as amended: cleaning a cleaned text changes nothing whenever none of
    the three block patterns matches in the cleaned text; a block that the
    first pass put together is removed by the second. *)
Theorem clean_text_idempotent_settled (text : str) :
  re_search (match_block KGC_OPEN KGC_CLOSE) (clean_text text) = false ->
  re_search match_fence (clean_text text) = false ->
  re_search (match_block FR_OPEN FR_CLOSE) (clean_text text) = false ->
  clean_text (clean_text text) = clean_text text.
Proof.
  intros H1 H2 H3. unfold clean_text at 1.
  rewrite (re_sub_no_match _ _ _ H1), (re_sub_no_match _ _ _ H2),
    (re_sub_no_match _ _ _ H3).
  rewrite re_sub_no_match.
  - unfold clean_text. apply strip_idempotent.
  - unfold clean_text. apply re_search_newlines_strip.
    apply collapse_newlines_settled.
Qed.

Lemma clean_text_idempotent_settled_witness :
  let text :=
    lit "  a" ++ [NL; NL; NL; NL]
    ++ lit "<function_results>x</function_results> b " in
  clean_text text = lit "a" ++ PARA_SEP ++ lit "[tool output] b"
  /\ clean_text (clean_text text) = clean_text text.
Proof.
  intros text. split; [vm_compute; reflexivity|].
  apply (clean_text_idempotent_settled text).
  - vm_compute. reflexivity.
  - vm_compute. reflexivity.
  - vm_compute. reflexivity.
Defined.

(** C4 as stated fails: removing the inner block leaves the two halves of an
    opening tag side by side, and the second pass removes the block they now
    open. *)
Lemma clean_text_not_idempotent :
  let text :=
    lit "<knowledge-<knowledge-graph-context>x</knowledge-graph-context>graph-context>y</knowledge-graph-context>" in
  clean_text text = lit "<knowledge-graph-context>y</knowledge-graph-context>"
  /\ clean_text (clean_text text) = []
  /\ clean_text (clean_text text) <> clean_text text.
Proof.
  intros text. split; [vm_compute; reflexivity|].
  split; [vm_compute; reflexivity|]. vm_compute. discriminate.
Qed.

(** ** [process_memory_files] *)

Section memory_scan.
Variable fs : memory_fs.

Lemma visit_inv (st : scan) (filepath : str) :
  scan_inv fs st ->
  scan_inv fs (visit fs st filepath)
  /\ (forall f, f ∈ opened (visit fs st filepath)
                <-> f ∈ opened st \/ f = filepath).
Proof.
  intros (Hs & Hn & Hc). unfold visit.
  destruct (decide (filepath ∈ seen_files st)) as [Hin|Hout].
  - split; [done|]. intros f. split; [by left|].
    intros [H| ->]; [done|]. rewrite Hs in Hin.
    by apply elem_of_list_to_set in Hin.
  - split.
    + repeat split; simpl.
      * rewrite Hs, list_to_set_app_L. simpl.
        by rewrite union_empty_r_L, union_comm_L.
      * apply NoDup_app. repeat split; [done| |apply NoDup_singleton].
        intros x Hx ->%list_elem_of_singleton. apply Hout.
        rewrite Hs. by apply elem_of_list_to_set.
      * rewrite Hc, map_app, concat_app. simpl. by rewrite app_nil_r.
    + intros f. simpl. rewrite elem_of_app, list_elem_of_singleton. done.
Qed.

Lemma visit_all_inv (matches : list str) (st : scan) :
  scan_inv fs st ->
  scan_inv fs (fold_left (visit fs) matches st)
  /\ (forall f, f ∈ opened (fold_left (visit fs) matches st)
                <-> f ∈ opened st \/ f ∈ matches).
Proof.
  revert st. induction matches as [|p matches IH]; intros st Hst.
  - split; [done|]. intros f. rewrite elem_of_nil. tauto.
  - simpl. destruct (visit_inv st p Hst) as [H1 H2].
    destruct (IH _ H1) as [H3 H4]. split; [done|].
    intros f. rewrite H4, H2, elem_of_cons. tauto.
Qed.

Lemma scan_all_inv (results : list (list str)) (st : scan) :
  scan_inv fs st ->
  let st' := fold_left (fun st matches => fold_left (visit fs) matches st)
               results st in
  scan_inv fs st'
  /\ (forall f, f ∈ opened st'
                <-> f ∈ opened st \/ exists matches,
                                       matches ∈ results /\ f ∈ matches).
Proof.
  revert st. induction results as [|r results IH]; intros st Hst.
  - split; [done|]. intros f. split; [by left|].
    intros [H|(ms & Hm & _)]; [done|]. by apply elem_of_nil in Hm.
  - simpl. destruct (visit_all_inv r st Hst) as [H1 H2].
    destruct (IH _ H1) as [H3 H4]. split; [done|].
    intros f. rewrite H4, H2. split.
    + intros [[H|H]|(ms & Hm & Hf)]; [by left| |].
      * right. exists r. split; [by left|done].
      * right. exists ms. split; [by right|done].
    + intros [H|(ms & Hm & Hf)]; [by left; left|].
      apply elem_of_cons in Hm as [->|Hm]; [by left; right|].
      right. by exists ms.
Qed.
End memory_scan.

(** C7, as amended: the scan tells files apart by the path string that
    [glob] returns.  It opens each returned path once, however many patterns
    return it, and the chunks it returns are the chunk sets of the opened
    paths, one set for each, in the order of opening. *)
Theorem process_memory_files_once (fs : memory_fs) :
  NoDup (opened (scan_memory_files fs))
  /\ (forall f : str,
         In f (opened (scan_memory_files fs))
         <-> exists matches, In matches (globbed fs) /\ In f matches)
  /\ process_memory_files fs
     = concat (map (memory_file_chunks fs) (opened (scan_memory_files fs))).
Proof.
  assert (I0 : scan_inv fs {| seen_files := ∅; opened := []; scan_chunks := [] |}).
  { repeat split; simpl; try done. apply NoDup_nil_2. }
  destruct (scan_all_inv fs (globbed fs) _ I0) as [(H1 & H2 & H3) H4].
  fold (scan_memory_files fs) in H1, H2, H3, H4.
  split; [done|]. split; [|done].
  intros f. rewrite <- list_elem_of_In, H4. simpl. split.
  - intros [H|(ms & Hm & Hf)]; [by apply elem_of_nil in H|].
    exists ms. by rewrite <- !list_elem_of_In.
  - intros (ms & Hm & Hf). right. exists ms. by rewrite !list_elem_of_In.
Qed.

(** A file under [archive/] is matched by the third and by the fourth
    pattern; it is opened once and gives its chunk once. *)
Example process_memory_files_overlap :
  let fs := {| globbed := [[]; []; [lit "m/archive/x.md"];
                           [lit "m/archive/x.md"; lit "m/archive/y/z.md"]];
               read_file := fun p => Some (p ++ repeat 120%N 80);
               relpath := fun p => drop 2 p |} in
  opened (scan_memory_files fs) = [lit "m/archive/x.md"; lit "m/archive/y/z.md"]
  /\ process_memory_files fs
     = [(lit "m/archive/x.md" ++ repeat 120%N 80, lit "memory:archive/x.md");
        (lit "m/archive/y/z.md" ++ repeat 120%N 80, lit "memory:archive/y/z.md")].
Proof. split; vm_compute; reflexivity. Qed.

(** C7 as stated fails: one file reached under two path strings, which
    resolve to the same path, is opened twice and gives its chunk twice. *)
Lemma process_memory_files_link_twice :
  link_resolve (lit "m/kb/a.md") = link_resolve (lit "m/archive/kb/a.md")
  /\ read_file link_fs (lit "m/kb/a.md")
     = read_file link_fs (lit "m/archive/kb/a.md")
  /\ opened (scan_memory_files link_fs)
     = [lit "m/kb/a.md"; lit "m/archive/kb/a.md"]
  /\ process_memory_files link_fs
     = [(repeat 120%N 80, lit "memory:kb/a.md");
        (repeat 120%N 80, lit "memory:archive/kb/a.md")].
Proof.
  split; [vm_compute; reflexivity|].
  split; [vm_compute; reflexivity|].
  split; vm_compute; reflexivity.
Qed.

(** ** [insert_observations] *)

Section insert_loop.
Context {DB : Type} (w : store DB) (db0 : DB).

Local Abbreviation start :=
  {| db := db0; inserted := 0%Z; attempted := []; errors := 0 |}.



End insert_loop.



(** ** [process_session_file] *)

Lemma is_user_or_assistant_iff (role : json) :
  is_user_or_assistant role = true
  <-> role = JStr (lit "user") \/ role = JStr (lit "assistant").
Proof.
  destruct role; simpl; try (split; [done|by intros [|]]).
  unfold str_eqb. rewrite orb_true_iff, !bool_decide_eq_true.
  split; intros [H|H]; try (by left; congruence); by right; congruence.
Qed.

Lemma bind_ok {A B} (f : A -> res B) (x : res A) (b : B) :
  x ≫= f = Ok b <-> exists a, x = Ok a /\ f a = Ok b.
Proof.
  destruct x as [a|e]; simpl.
  - split; [by exists a|]. by intros (? & [= <-] & ?).
  - split; [done|]. by intros (? & ? & ?).
Qed.

(** A line adds a message exactly under the three conditions. *)
Lemma process_line_kept (l : line) (m : str) :
  process_line l = Ok (Some m) <-> kept_as l m.
Proof.
  assert (B : process_line l = Ok (Some m) <-> line_body l = Ok (Some m)).
  { unfold process_line. by destruct (line_body l) as [|[]]. }
  rewrite B. clear B. unfold kept_as, line_message, line_body.
  rewrite bind_ok. split.
  - intros (obj & -> & H). apply bind_ok in H as (msg & Hmsg & H).
    apply bind_ok in H as (role & Hrole & H).
    destruct (is_user_or_assistant role) eqn:Er; [|done]. cbn [negb] in H.
    apply bind_ok in H as (content & Hc & H).
    apply bind_ok in H as (text & Ht & H).
    destruct (is_noise text) eqn:En; [done|].
    destruct (len (clean_text text) >=? MIN_MSG_LEN)%Z eqn:El; [|done].
    injection H as <-. exists role, text.
    split; [by exists obj, msg, content|].
    split; [by apply is_user_or_assistant_iff|]. split; [done|].
    split; [|done]. apply Z.geb_le in El. done.
  - intros (role & text & (obj & msg & content & -> & Hm & Hr & Hc & Ht)
            & Hrole & Hn & Hl & ->).
    exists obj. split; [done|]. apply bind_ok.
    exists msg. split; [done|]. apply bind_ok. exists role. split; [done|].
    apply is_user_or_assistant_iff in Hrole. rewrite Hrole. cbn [negb].
    apply bind_ok. exists content. split; [done|].
    apply bind_ok. exists text. split; [done|]. rewrite Hn.
    apply Z.geb_le in Hl. by rewrite Hl.
Qed.

Lemma session_messages_spec (lines : list line) (acc messages : list str) :
  session_messages lines acc = Ok messages ->
  forall m, In m messages
            <-> In m acc \/ exists l, In l lines /\ process_line l = Ok (Some m).
Proof.
  revert acc. induction lines as [|l lines IH]; intros acc H m.
  - injection H as <-. split; [by left|]. by intros [|(?&?&?)].
  - simpl in H. apply bind_ok in H as (r & Hr & H).
    rewrite (IH _ H). split.
    + intros [Hin|(l' & Hl' & Hp)].
      * destruct r as [m'|]; [|by left].
        apply in_app_or in Hin as [Hin|[<-|[]]]; [by left|].
        right. exists l. split; [by left|done].
      * right. exists l'. split; [by right|done].
    + intros [Hin|(l' & [<-|Hl'] & Hp)].
      * left. destruct r; [|done]. apply in_or_app. by left.
      * left. rewrite Hp in Hr. injection Hr as <-.
        apply in_or_app. right. by left.
      * right. by exists l'.
Qed.





(** * Further properties of the chunker *)

Section chunk_loop_more.
Variables (source : str) (chunk_size : Z).

Local Abbreviation step := (chunk_step source chunk_size).

Lemma chunk_loop_source (ps : list str) (chunks : list chunk) (current : str) :
  Forall (fun c : chunk => c.2 = source) chunks ->
  Forall (fun c : chunk => c.2 = source)
    (fold_left step ps (chunks, current)).1.
Proof.
  revert chunks current. induction ps as [|p ps IH]; intros chunks current H.
  - done.
  - cbn [fold_left]. rewrite chunk_step_eq.
    destruct ((len current + len p + 2 >? chunk_size)%Z && truthy current).
    + apply IH. apply Forall_app. split; [done|]. by constructor.
    + by apply IH.
Qed.

Lemma chunk_loop_trimmed (ps : list str) (chunks : list chunk) (current : str) :
  Forall (fun c : chunk => strip c.1 = c.1) chunks ->
  Forall (fun c : chunk => strip c.1 = c.1)
    (fold_left step ps (chunks, current)).1.
Proof.
  revert chunks current. induction ps as [|p ps IH]; intros chunks current H.
  - done.
  - cbn [fold_left]. rewrite chunk_step_eq.
    destruct ((len current + len p + 2 >? chunk_size)%Z && truthy current).
    + apply IH. apply Forall_app. split; [done|].
      constructor; [|done]. apply strip_idempotent.
    + by apply IH.
Qed.

Lemma chunk_loop_held (ps : list str) (st : list chunk * str) :
  held (fold_left step ps st) <= held st + length ps.
Proof.
  revert st. induction ps as [|p ps IH]; intros [chunks current].
  - simpl. lia.
  - cbn [fold_left]. rewrite chunk_step_eq.
    etrans; [apply IH|].
    destruct ((len current + len p + 2 >? chunk_size)%Z && truthy current) eqn:E;
      unfold held; cbn [fst snd length].
    + apply andb_true_iff in E as [_ Ht]. rewrite Ht, length_app. simpl.
      destruct (truthy p); lia.
    + destruct (truthy current).
      * destruct (truthy (current ++ PARA_SEP ++ p)); lia.
      * destruct (truthy p); lia.
Qed.

Lemma chunk_loop_fits (paragraphs ps : list str) (chunks : list chunk)
    (current : str) :
  (forall p, In p ps -> In p paragraphs) ->
  Forall (fun c : chunk => fits_or_single chunk_size paragraphs c.1) chunks ->
  current = [] \/ (len current <= chunk_size)%Z \/ In current paragraphs ->
  Forall (fun c : chunk => fits_or_single chunk_size paragraphs c.1)
    (fold_left step ps (chunks, current)).1
  /\ ((fold_left step ps (chunks, current)).2 = []
      \/ (len (fold_left step ps (chunks, current)).2 <= chunk_size)%Z
      \/ In (fold_left step ps (chunks, current)).2 paragraphs).
Proof.
  revert chunks current.
  induction ps as [|p ps IH]; intros chunks current Hin Hcs Hc; [done|].
  assert (Hp : In p paragraphs) by (apply Hin; by left).
  assert (Hin' : forall q, In q ps -> In q paragraphs)
    by (intros q Hq; apply Hin; by right).
  cbn [fold_left]. rewrite chunk_step_eq.
  destruct ((len current + len p + 2 >? chunk_size)%Z) eqn:E; cbn [andb].
  - destruct (truthy current) eqn:Ht.
    + apply IH; [done| |by right; right].
      apply Forall_app. split; [done|]. constructor; [|done]. cbn [fst].
      destruct Hc as [->|[Hc|Hc]]; [done| |].
      * left. pose proof (len_strip current). lia.
      * right. by exists current.
    + destruct current; [|done]. apply IH; [done|done|by right; right].
  - apply IH; [done|done|]. destruct (truthy current) eqn:Ht.
    + right. left. rewrite Z.gtb_ltb in E. apply Z.ltb_ge in E.
      unfold len in *. rewrite !length_app. simpl. lia.
    + by right; right.
Qed.

Lemma visible_app (a b : str) : visible (a ++ b) = visible a ++ visible b.
Proof. apply List.filter_app. Qed.

Lemma visible_lstrip (s : str) : visible (lstrip s) = visible s.
Proof.
  induction s as [|c s IH]; [done|]. simpl.
  destruct (isspace c) eqn:E; simpl; [done|].
  unfold visible. simpl. by rewrite E.
Qed.

Lemma visible_strip (s : str) : visible (strip s) = visible s.
Proof.
  unfold strip, rstrip, visible.
  rewrite List.filter_rev. fold (visible (lstrip (rev (lstrip s)))).
  rewrite visible_lstrip. unfold visible. rewrite List.filter_rev.
  rewrite rev_involutive. apply visible_lstrip.
Qed.

Lemma visible_join (l : list str) :
  visible (join PARA_SEP l) = concat (map visible l).
Proof.
  induction l as [|p l IH]; [done|].
  destruct l as [|q l]; [simpl; by rewrite app_nil_r|].
  rewrite join_cons by done. rewrite !visible_app, IH. done.
Qed.

Lemma chunk_loop_visible (ps : list str) (st : list chunk * str) :
  visible_state (fold_left step ps st)
  = visible_state st ++ concat (map visible ps).
Proof.
  revert st. induction ps as [|p ps IH]; intros [chunks current].
  - simpl. by rewrite app_nil_r.
  - cbn [fold_left]. rewrite chunk_step_eq, IH. unfold visible_state.
    cbn [map concat].
    destruct ((len current + len p + 2 >? chunk_size)%Z && truthy current).
    + cbn [fst snd]. rewrite map_app, concat_app. simpl.
      rewrite visible_strip, app_nil_r, <- !app_assoc. done.
    + cbn [fst snd]. destruct (truthy current) eqn:Ht.
      * rewrite !visible_app, <- !app_assoc. done.
      * destruct current; [|done]. by rewrite <- !app_assoc.
Qed.
End chunk_loop_more.

Lemma truthy_strip (s : str) : truthy (strip s) = true -> truthy s = true.
Proof. by destruct s. Qed.

Lemma strip_nil_visible (s : str) : truthy (strip s) = false -> visible s = [].
Proof.
  intros H. rewrite <- visible_strip. by destruct (strip s).
Qed.

(** Trimmed text in, trimmed chunks out; on the path through the loop the
    chunks are trimmed whatever the text. *)
Lemma chunk_text_trimmed_chunks (text source : str) (chunk_size : Z) :
  (len text > chunk_size)%Z \/ strip text = text ->
  Forall (fun c : chunk => strip c.1 = c.1) (chunk_text text source chunk_size).
Proof.
  intros H. rewrite chunk_text_eq.
  destruct (len text <=? chunk_size)%Z eqn:E.
  - apply Z.leb_le in E. destruct H as [H|H]; [lia|]. by repeat constructor.
  - pose proof (chunk_loop_trimmed source chunk_size (split_paragraphs text)
                  [] [] (List.Forall_nil _)) as T.
    unfold chunk_flush. destruct (fold_left _ _ _) as [chunks current].
    cbn [fst snd] in *. destruct (truthy (strip current)); [|done].
    apply Forall_app. split; [done|]. constructor; [|done].
    apply strip_idempotent.
Qed.

Lemma chunk_text_sources (text source : str) (chunk_size : Z) :
  Forall (fun c : chunk => c.2 = source) (chunk_text text source chunk_size).
Proof.
  rewrite chunk_text_eq. destruct (len text <=? chunk_size)%Z.
  - by repeat constructor.
  - pose proof (chunk_loop_source source chunk_size (split_paragraphs text)
                  [] [] (List.Forall_nil _)) as T.
    unfold chunk_flush. destruct (fold_left _ _ _) as [chunks current].
    cbn [fst snd] in *. destruct (truthy (strip current)); [|done].
    apply Forall_app. split; [done|]. by constructor.
Qed.

(** X1: every chunk [chunk_text] returns carries the source label it was
    given, unchanged. *)
Theorem chunk_text_keeps_source (text source : str) (chunk_size : Z) :
  Forall (fun c : chunk => c.2 = source) (chunk_text text source chunk_size).
Proof. apply chunk_text_sources. Qed.

(** X2: [chunk_text] never returns more chunks than the text has
    paragraphs. *)
Theorem chunk_text_count (text source : str) (chunk_size : Z) :
  length (chunk_text text source chunk_size)
  <= length (split_paragraphs text).
Proof.
  rewrite chunk_text_eq. destruct (len text <=? chunk_size)%Z.
  - pose proof (split_paragraphs_nonempty text).
    destruct (split_paragraphs text); [done|]. simpl. lia.
  - pose proof (chunk_loop_held source chunk_size (split_paragraphs text)
                  ([], [])) as H.
    unfold held, chunk_flush in *.
    destruct (fold_left _ _ _) as [chunks current]. cbn [fst snd] in *.
    destruct (truthy (strip current)) eqn:E; [|simpl in H; lia].
    apply truthy_strip in E. rewrite E in H. rewrite length_app. simpl in *. lia.
Qed.

Lemma chunk_text_visible (text source : str) (chunk_size : Z) :
  concat (map (fun c : chunk => visible c.1)
            (chunk_text text source chunk_size))
  = visible text.
Proof.
  rewrite chunk_text_eq. destruct (len text <=? chunk_size)%Z.
  - simpl. by rewrite app_nil_r.
  - pose proof (chunk_loop_visible source chunk_size (split_paragraphs text)
                  ([], [])) as H.
    rewrite <- visible_join, join_split_paragraphs in H.
    unfold visible_state, chunk_flush in *.
    destruct (fold_left _ _ _) as [chunks current]. cbn [fst snd] in *.
    simpl in H. rewrite <- H.
    destruct (truthy (strip current)) eqn:E.
    + rewrite map_app, concat_app. simpl.
      by rewrite visible_strip, app_nil_r.
    + apply strip_nil_visible in E. by rewrite E, app_nil_r.
Qed.

(** X3: chunking loses no text: the characters other than white space of the
    chunks, taken in order, are those of the input, none lost, repeated or
    moved. *)
Theorem chunk_text_keeps_visible (text source : str) (chunk_size : Z) :
  concat (map (fun c : chunk => visible c.1)
            (chunk_text text source chunk_size))
  = visible text.
Proof. apply chunk_text_visible. Qed.

(** X4: a chunk is longer than the limit only when it is one paragraph of the
    text, trimmed: every chunk is within the limit or is a single paragraph
    with its surrounding white space removed. *)
Theorem chunk_text_oversize_single (text source : str) (chunk_size : Z) :
  Forall (fun c : chunk =>
            (len c.1 <= chunk_size)%Z
            \/ exists p, In p (split_paragraphs text) /\ c.1 = strip p)
    (chunk_text text source chunk_size).
Proof.
  rewrite chunk_text_eq. destruct (len text <=? chunk_size)%Z eqn:E.
  - apply Z.leb_le in E. constructor; [by left|done].
  - destruct (chunk_loop_fits source chunk_size (split_paragraphs text)
                (split_paragraphs text) [] [] (fun p H => H)
                (List.Forall_nil _) (or_introl eq_refl)) as [H1 H2].
    unfold chunk_flush, fits_or_single in *.
    destruct (fold_left _ _ _) as [chunks current]. cbn [fst snd] in *.
    destruct (truthy (strip current)) eqn:Et; [|done].
    apply Forall_app. split; [done|]. constructor; [|done]. cbn [fst].
    destruct H2 as [->|[H2|H2]]; [done| |].
    + left. pose proof (len_strip current). lia.
    + right. by exists current.
Qed.

(** X5: the chunks made by the loop are trimmed: when the text is longer than
    the limit, or is itself trimmed, no chunk has white space at either
    end. *)
Theorem chunk_text_trimmed (text source : str) (chunk_size : Z) :
  (len text > chunk_size)%Z \/ strip text = text ->
  Forall (fun c : chunk => strip c.1 = c.1) (chunk_text text source chunk_size).
Proof. apply chunk_text_trimmed_chunks. Qed.

Lemma chunk_text_trimmed_witness :
  Forall (fun c : chunk => strip c.1 = c.1)
    (chunk_text (lit " ab " ++ PARA_SEP ++ lit " cd ") (lit "s") 4)
  /\ Forall (fun c : chunk => strip c.1 = c.1)
       (chunk_text (lit "ab") (lit "s") 4).
Proof.
  split.
  - apply chunk_text_trimmed. left. vm_compute. reflexivity.
  - apply chunk_text_trimmed. right. vm_compute. reflexivity.
Defined.

(** * Further properties of the cleaning transform *)

Lemma re_search_newlines_drop (s : str) (i : nat) :
  re_search match_newlines s = false -> run (drop i s) < 3.
Proof.
  revert i. induction s as [|c s IH]; intros i H.
  - rewrite drop_nil. unfold run. simpl. lia.
  - rewrite re_search_newlines_cons in H.
    apply orb_false_iff in H as [H1 H2]. apply Nat.leb_gt in H1.
    destruct i as [|i]; [done|]. simpl. by apply IH.
Qed.

Lemma startswith_cons (a c : char) (p s : str) :
  startswith (c :: s) (a :: p) = (a =? c)%N && startswith s p.
Proof. reflexivity. Qed.

Lemma startswith_newlines_run (t : str) :
  startswith t [NL; NL; NL] = true -> 3 <= run t.
Proof.
  destruct t as [|a t]; [done|]. rewrite startswith_cons.
  intros [<-%N.eqb_eq H]%andb_true_iff.
  destruct t as [|b t]; [done|]. rewrite startswith_cons in H.
  apply andb_true_iff in H as [<-%N.eqb_eq H].
  destruct t as [|c t]; [done|]. rewrite startswith_cons in H.
  apply andb_true_iff in H as [<-%N.eqb_eq H].
  rewrite !run_cons. simpl. lia.
Qed.

(** X6: what [clean_text] returns is trimmed and has nowhere three newlines
    in a row. *)
Theorem clean_text_settled (text : str) :
  strip (clean_text text) = clean_text text
  /\ forall i, ~ occurs_at [NL; NL; NL] (clean_text text) i.
Proof.
  split.
  - unfold clean_text. apply strip_idempotent.
  - intros i H. apply startswith_newlines_run in H.
    assert (S : re_search match_newlines (clean_text text) = false).
    { unfold clean_text. apply re_search_newlines_strip.
      apply collapse_newlines_settled. }
    pose proof (re_search_newlines_drop _ i S). lia.
Qed.

Lemma find_bound (sub s : str) (k : nat) :
  find sub s = Some k -> k + length sub <= length s.
Proof.
  revert k. induction s as [|c s IH]; intros k.
  - destruct sub; [|done]. intros [= <-]. simpl. lia.
  - cbn [find]. destruct (startswith (c :: s) sub) eqn:E.
    + intros [= <-]. by apply startswith_length in E.
    + destruct (find sub s) as [k'|]; [|done]. simpl.
      intros [= <-]. specialize (IH k' eq_refl). simpl. lia.
Qed.

Lemma take_while_length (p : char -> bool) (s : str) :
  length (take_while p s) <= length s.
Proof.
  induction s as [|c s IH]; simpl; [lia|]. destruct (p c); simpl; lia.
Qed.

Lemma match_block_bound (opening closing s : str) (n : nat) :
  match_block opening closing s = Some n ->
  length opening + length closing <= n <= length s.
Proof.
  unfold match_block. destruct (startswith s opening) eqn:E; [|done].
  destruct (find closing _) as [k|] eqn:F; [|done]. intros [= <-].
  apply startswith_length in E. apply find_bound in F.
  rewrite length_drop in F. lia.
Qed.

Lemma match_fence_bound (s : str) (n : nat) :
  match_fence s = Some n -> n <= length s.
Proof.
  unfold match_fence. destruct (startswith s FENCE_OPEN) eqn:E; [|done].
  destruct (startswith _ FENCE_CLOSE && _) eqn:F; [|done]. intros [= <-].
  apply andb_true_iff in F as [F _].
  apply startswith_length in E, F. rewrite !length_drop in F.
  change (length FENCE_OPEN) with 9 in *.
  change (length FENCE_CLOSE) with 5 in *. lia.
Qed.

Lemma match_newlines_bound (s : str) (n : nat) :
  match_newlines s = Some n -> 3 <= n <= length s.
Proof.
  rewrite match_newlines_eq. destruct (3 <=? run s) eqn:E; [|done].
  intros [= <-]. apply Nat.leb_le in E. split; [done|].
  apply take_while_length.
Qed.

(** A replacement no longer than what it replaces does not lengthen. *)
Lemma re_sub_length (m : str -> option nat) (repl : str) :
  (forall s n, m s = Some n -> length repl <= n <= length s) ->
  forall s, length (re_sub m repl s) <= length s.
Proof.
  intros Hm.
  assert (G : forall k s, length s <= k ->
            length (re_sub m repl s) <= length s).
  { induction k as [|k IH]; intros s Hk.
    - destruct s; [done|simpl in Hk; lia].
    - destruct s as [|c s]; [done|]. rewrite re_sub_cons.
      destruct (m (c :: s)) as [[|n]|] eqn:E.
      + simpl in *. specialize (IH s). lia.
      + apply Hm in E. rewrite length_app.
        assert (L : length (re_sub m repl (drop n s)) <= length (drop n s)).
        { apply IH. rewrite length_drop. simpl in Hk. lia. }
        rewrite length_drop in L. simpl in *. lia.
      + simpl in *. specialize (IH s). lia. }
  intros s. by apply (G (length s)).
Qed.

(** X7: cleaning never makes a text longer. *)
Theorem clean_text_no_longer (text : str) :
  length (clean_text text) <= length text.
Proof.
  unfold clean_text.
  etrans; [apply strip_length|].
  etrans; [apply re_sub_length|].
  { intros s n H. apply match_newlines_bound in H. simpl. lia. }
  etrans; [apply re_sub_length|].
  { intros s n H. apply match_block_bound in H.
    change (length TOOL_OUTPUT) with 13.
    change (length FR_OPEN) with 18 in H.
    change (length FR_CLOSE) with 19 in H. lia. }
  etrans; [apply re_sub_length|].
  { intros s n H. apply match_fence_bound in H. simpl. lia. }
  apply re_sub_length.
  intros s n H. apply match_block_bound in H. simpl. lia.
Qed.

(** * Further properties of the two readers *)

Lemma memory_file_chunks_shape (fs : memory_fs) (f : str) :
  Forall (fun c : chunk =>
            strip c.1 = c.1 /\ c.2 = lit "memory:" ++ relpath fs f)
    (memory_file_chunks fs f).
Proof.
  unfold memory_file_chunks. destruct (read_file fs f) as [text|]; [|done].
  destruct (len (strip text) <? MIN_MSG_LEN)%Z; [done|].
  apply Forall_and. split.
  - apply chunk_text_trimmed_chunks. right. unfold clean_text.
    apply strip_idempotent.
  - apply chunk_text_sources.
Qed.

(** X8: every chunk [process_memory_files] returns is trimmed and is labelled
    ["memory:"] followed by the relative path of one of the files opened. *)
Theorem process_memory_files_chunks (fs : memory_fs) :
  Forall (fun c : chunk =>
            strip c.1 = c.1
            /\ exists f, In f (opened (scan_memory_files fs))
                         /\ c.2 = lit "memory:" ++ relpath fs f)
    (process_memory_files fs).
Proof.
  assert (I0 : scan_inv fs {| seen_files := ∅; opened := []; scan_chunks := [] |}).
  { repeat split; simpl; try done. apply NoDup_nil_2. }
  destruct (scan_all_inv fs (globbed fs) _ I0) as [(_ & _ & H3) _].
  fold (scan_memory_files fs) in H3. unfold process_memory_files.
  rewrite H3. apply List.Forall_concat, List.Forall_map.
  apply List.Forall_forall. intros f Hf.
  eapply Forall_impl; [apply memory_file_chunks_shape|].
  intros c [H1 H2]. split; [done|]. by exists f.
Qed.

Lemma kept_plain (l : line) (m : str) : kept_as l m -> plain m.
Proof.
  intros (role & text & _ & _ & _ & Hl & ->). split; [done|].
  rewrite (app_assoc (label role)).
  apply strip_sandwich; [done| |done|].
  - intros E. rewrite E in Hl. by vm_compute in Hl.
  - unfold clean_text. apply strip_idempotent.
Qed.

Lemma session_messages_plain (lines : list line) (messages : list str) :
  session_messages lines [] = Ok messages -> Forall plain messages.
Proof.
  intros H. apply List.Forall_forall. intros m Hm.
  apply (session_messages_spec lines [] messages H m) in Hm
    as [[]|(l & _ & Hl)].
  apply process_line_kept in Hl. by apply (kept_plain l).
Qed.

(** X9: every chunk [process_session_file] returns is trimmed and is labelled
    ["session:"] followed by the base name of the file. *)
Theorem process_session_file_chunks (basename : str)
    (file : option (list line)) :
  Forall (fun c : chunk =>
            strip c.1 = c.1 /\ c.2 = lit "session:" ++ basename)
    (process_session_file basename file).
Proof.
  unfold process_session_file. destruct file as [lines|]; [|done].
  destruct (session_messages lines []) as [messages|] eqn:E; [|done].
  apply session_messages_plain in E.
  destruct messages as [|m ms]; [done|].
  apply Forall_and. split; [|apply chunk_text_sources].
  apply chunk_text_trimmed_chunks. right.
  by apply plain_join.
Qed.

Lemma session_messages_app (before after : list line) (acc : list str) :
  session_messages (before ++ after) acc
  = session_messages before acc ≫= session_messages after.
Proof.
  revert acc. induction before as [|l before IH]; intros acc; [done|].
  simpl. destruct (process_line l) as [r|e]; [|done]. simpl. apply IH.
Qed.

Lemma session_messages_skip (before after : list line) (l : line)
    (acc : list str) :
  process_line l = Ok None ->
  session_messages (before ++ l :: after) acc
  = session_messages (before ++ after) acc.
Proof.
  intros H. rewrite !session_messages_app.
  destruct (session_messages before acc) as [ms|e]; [|done].
  simpl. by rewrite H.
Qed.

Lemma bind_raise {A B} (f : A -> res B) (x : res A) (e : exn) :
  x ≫= f = Raise e -> x = Raise e \/ exists a, x = Ok a /\ f a = Raise e.
Proof.
  destruct x as [a|e0]; simpl; intros H; [right; by exists a|].
  left. by injection H as ->.
Qed.

Lemma dict_get_raise (v : json) (key : str) (dflt : json) (e : exn) :
  dict_get v key dflt = Raise e -> e = AttributeError.
Proof. destruct v; simpl; congruence. Qed.

Lemma all_str_raise_type (texts : list json) (e : exn) :
  all_str texts = Raise e -> e = TypeError.
Proof.
  induction texts as [|t texts IH]; [done|].
  destruct t; simpl; try congruence.
  intros [H|(a & _ & H)]%bind_raise; [by apply IH|done].
Qed.

Lemma extract_text_raise (content : json) (e : exn) :
  extract_text_from_content content = Raise e -> e = TypeError.
Proof.
  destruct content; simpl; try done.
  intros [H|(a & _ & H)]%bind_raise; [|done].
  by apply all_str_raise_type in H.
Qed.

(** The exceptions the body of the inner [try] can raise by itself are
    [AttributeError] and [TypeError]; any other comes from [json.loads]. *)
Lemma line_body_raise (l : line) (e : exn) :
  line_body l = Raise e ->
  l = Raise e \/ e = AttributeError \/ e = TypeError.
Proof.
  unfold line_body.
  intros [H|(obj & _ & H)]%bind_raise; [by left|]. right.
  apply bind_raise in H as [H|(msg & _ & H)];
    [left; by apply dict_get_raise in H|].
  apply bind_raise in H as [H|(role & _ & H)];
    [left; by apply dict_get_raise in H|].
  destruct (negb (is_user_or_assistant role)); [done|].
  apply bind_raise in H as [H|(content & _ & H)];
    [left; by apply dict_get_raise in H|].
  apply bind_raise in H as [H|(text & _ & H)];
    [right; by apply extract_text_raise in H|].
  destruct (is_noise text); [done|].
  by destruct (len (clean_text text) >=? MIN_MSG_LEN)%Z.
Qed.

Lemma line_body_caught (l : line) (e : exn) :
  line_body l = Raise e -> e = JSONDecodeError \/ e = KeyError ->
  l = Raise e.
Proof.
  intros [H|[->| ->]]%line_body_raise He; [done| |]; by destruct He.
Qed.

Lemma process_line_passed_over (l : line) :
  process_line l = Ok None <-> passed_over l.
Proof.
  unfold passed_over. split.
  - intros H.
    assert (B : line_body l = Ok None
                \/ line_body l = Raise JSONDecodeError
                \/ line_body l = Raise KeyError).
    { unfold process_line in H.
      destruct (line_body l) as [[m|]|[]]; simplify_eq; auto. }
    destruct B as [B|[B|B]].
    + right. right. unfold line_body in B.
      apply bind_ok in B as (obj & -> & B).
      apply bind_ok in B as (msg & Hmsg & B).
      apply bind_ok in B as (role & Hrole & B).
      exists obj, msg, role. repeat (split; [done|]).
      destruct (is_user_or_assistant role); [|by left]. cbn [negb] in B.
      right. apply bind_ok in B as (content & Hc & B).
      apply bind_ok in B as (text & Ht & B).
      exists content, text. repeat (split; [done|]).
      destruct (is_noise text); [by left|]. right.
      destruct (len (clean_text text) >=? MIN_MSG_LEN)%Z eqn:El; [done|].
      rewrite Z.geb_leb in El. by apply Z.leb_gt in El.
    + left. apply line_body_caught in B; auto.
    + right. left. apply line_body_caught in B; auto.
  - intros [->|[->|(obj & msg & role & -> & Hm & Hr & H)]]; [done|done|].
    unfold process_line, line_body. simpl. rewrite Hm. simpl.
    rewrite Hr. simpl.
    destruct H as [->|(content & text & Hc & Ht & H)]; [done|].
    destruct (is_user_or_assistant role); [|done]. simpl.
    rewrite Hc. simpl. rewrite Ht. simpl.
    destruct H as [->|H]; [done|]. destruct (is_noise text); [done|].
    apply Z.leb_gt in H. rewrite Z.geb_leb, H. done.
Qed.

(** X10: a line is passed over exactly when [json.loads] raises
    [JSONDecodeError] (or [KeyError], the other exception the inner handler
    names), or its record has a role other than user and assistant, or its
    text is noise or cleans to fewer than 80 characters; a line that is
    passed over can be taken out of the file without changing the chunks. *)
Theorem process_session_file_skips :
  (forall l : line, process_line l = Ok None <-> passed_over l)
  /\ (forall (basename : str) (before after : list line) (l : line),
         passed_over l ->
         process_session_file basename (Some (before ++ l :: after))
         = process_session_file basename (Some (before ++ after))).
Proof.
  split; [apply process_line_passed_over|].
  intros basename before after l H. apply process_line_passed_over in H.
  unfold process_session_file.
  by rewrite (session_messages_skip before after l [] H).
Qed.

Lemma process_session_file_skips_witness :
  passed_over (Raise JSONDecodeError)
  /\ passed_over (message_line "system" (repeat 104%N 100))
  /\ process_session_file (lit "a.jsonl") (Some sample_session)
     = process_session_file (lit "a.jsonl")
         (Some [message_line "user" (repeat 104%N 100);
                message_line "system" (repeat 104%N 100);
                message_line "assistant" (lit "done" ++ repeat 32%N 90)]).
Proof.
  destruct process_session_file_skips as (H1 & H2).
  assert (P : passed_over (Raise JSONDecodeError)) by (by left).
  split; [exact P|]. split.
  - apply H1. vm_compute. reflexivity.
  - exact (H2 (lit "a.jsonl") [message_line "user" (repeat 104%N 100)]
             [message_line "system" (repeat 104%N 100);
              message_line "assistant" (lit "done" ++ repeat 32%N 90)]
             (Raise JSONDecodeError) P).
Defined.

Lemma session_messages_raise (lines : list line) (acc : list str)
    (l : line) (e : exn) :
  In l lines -> process_line l = Raise e ->
  exists e', session_messages lines acc = Raise e'.
Proof.
  revert acc. induction lines as [|l0 lines IH]; intros acc Hin Hr; [done|].
  simpl. destruct (process_line l0) as [r|e0] eqn:E0; [|by exists e0].
  simpl. destruct Hin as [->|Hin]; [congruence|]. by apply IH.
Qed.

(** X11: a line whose record, or whose message, is not an object raises
    [AttributeError], which the inner handler does not catch; one such line
    anywhere in the file and the file gives no chunk at all. *)
Theorem process_session_file_aborts :
  (forall obj : json,
      (forall fields, obj <> JObj fields) ->
      process_line (Ok obj) = Raise AttributeError)
  /\ (forall (fields : list (str * json)) (msg : json),
         lookup_field (lit "message") fields = Some msg ->
         (forall fields', msg <> JObj fields') ->
         process_line (Ok (JObj fields)) = Raise AttributeError)
  /\ (forall (basename : str) (lines : list line) (l : line) (e : exn),
         In l lines -> process_line l = Raise e ->
         process_session_file basename (Some lines) = []).
Proof.
  split; [|split].
  - intros obj H. destruct obj; try done. by destruct (H fields).
  - intros fields msg Hm H. unfold process_line, line_body. simpl.
    rewrite Hm. simpl. destruct msg; try done. by destruct (H fields0).
  - intros basename lines l e Hin Hr. unfold process_session_file.
    destruct (session_messages_raise lines [] l e Hin Hr) as [e' ->]. done.
Qed.

Lemma process_session_file_aborts_witness :
  process_line (Ok (JArr [])) = Raise AttributeError
  /\ process_line (Ok (JObj [(lit "message", JStr (lit "hi"))]))
     = Raise AttributeError
  /\ process_session_file (lit "a.jsonl")
       (Some (sample_session ++ [Ok (JArr [])])) = [].
Proof.
  destruct process_session_file_aborts as (H1 & H2 & H3).
  assert (R : process_line (Ok (JArr [])) = Raise AttributeError)
    by (by apply H1).
  split; [exact R|]. split.
  - by apply (H2 _ (JStr (lit "hi"))).
  - apply (H3 _ _ (Ok (JArr [])) AttributeError); [|exact R].
    apply in_or_app. right. by left.
Defined.

Lemma all_str_map (ss : list str) : all_str (map JStr ss) = Ok ss.
Proof. induction ss as [|s ss IH]; [done|]. simpl. by rewrite IH. Qed.

Lemma all_str_raise (texts : list json) (v : json) :
  In v texts -> (forall s, v <> JStr s) -> all_str texts = Raise TypeError.
Proof.
  induction texts as [|t texts IH]; [done|]. intros [->|Hin] Hv.
  - destruct v; try done. by destruct (Hv s).
  - destruct t; try done. simpl. by rewrite IH.
Qed.

(** X12: from a list content, [extract_text_from_content] takes the text
    parts and joins them with newlines; an item that is no text part changes
    nothing, and a text part whose text is not a string makes the call raise
    [TypeError]. *)
Theorem extract_text_from_list :
  (forall ss : list str,
      extract_text_from_content (JArr (map text_item ss))
      = Ok (join [NL] ss))
  /\ (forall (before after : list json) (x : json),
         text_part x = None ->
         extract_text_from_content (JArr (before ++ x :: after))
         = extract_text_from_content (JArr (before ++ after)))
  /\ (forall (before after : list json) (x v : json),
         text_part x = Some v -> (forall s, v <> JStr s) ->
         extract_text_from_content (JArr (before ++ x :: after))
         = Raise TypeError).
Proof.
  split; [|split].
  - intros ss. unfold extract_text_from_content.
    assert (E : omap text_part (map text_item ss) = map JStr ss).
    { induction ss as [|s ss IH]; [done|].
      change (omap text_part (map text_item (s :: ss)))
        with (JStr s :: omap text_part (map text_item ss)).
      by rewrite IH. }
    by rewrite E, all_str_map.
  - intros before after x H. unfold extract_text_from_content.
    rewrite !omap_app. simpl. by rewrite H.
  - intros before after x v H Hv. unfold extract_text_from_content.
    rewrite omap_app. simpl. rewrite H.
    rewrite (all_str_raise _ v); [done| |done].
    apply in_or_app. right. by left.
Qed.

Lemma extract_text_from_list_witness :
  extract_text_from_content
    (JArr [text_item (lit "a"); JObj [(lit "type", JStr (lit "image"))];
           text_item (lit "b")])
  = Ok (lit "a" ++ [NL] ++ lit "b")
  /\ extract_text_from_content
       (JArr [text_item (lit "a");
              JObj [(lit "type", JStr (lit "text")); (lit "text", JNull)]])
     = Raise TypeError.
Proof.
  destruct extract_text_from_list as (H1 & H2 & H3). split.
  - etrans.
    + exact (H2 [text_item (lit "a")] [text_item (lit "b")]
               (JObj [(lit "type", JStr (lit "image"))]) eq_refl).
    + exact (H1 [lit "a"; lit "b"]).
  - refine (H3 [text_item (lit "a")] []
              (JObj [(lit "type", JStr (lit "text")); (lit "text", JNull)])
              JNull eq_refl _).
    done.
Defined.

(** * Further properties of the insertion loop *)

Section insert_loop_more.
Context {DB : Type} (w : store DB).

Lemma insert_loop_all_ok (chunks : list chunk) (st : insertion DB) :
  (forall d r, execute w d r <> None) ->
  inserted (fold_left (insert_one w) chunks st)
  = (inserted st + Z.of_nat (length chunks))%Z
  /\ errors (fold_left (insert_one w) chunks st) = errors st.
Proof.
  intros H. revert st. induction chunks as [|c chunks IH]; intros st.
  - simpl. split; [lia|done].
  - cbn [fold_left]. destruct (IH (insert_one w st c)) as [I1 I2].
    rewrite I1, I2. unfold insert_one.
    destruct (execute w (db st) _) eqn:E; [|by apply H in E].
    simpl. split; [lia|done].
Qed.

Lemma insert_loop_all_fail (chunks : list chunk) (st : insertion DB) :
  (forall d r, execute w d r = None) ->
  db (fold_left (insert_one w) chunks st) = db st
  /\ inserted (fold_left (insert_one w) chunks st) = inserted st
  /\ errors (fold_left (insert_one w) chunks st)
     = errors st + length chunks.
Proof.
  intros H. revert st. induction chunks as [|c chunks IH]; intros st.
  - simpl. repeat split; lia.
  - cbn [fold_left]. destruct (IH (insert_one w st c)) as (I1 & I2 & I3).
    rewrite I1, I2, I3. unfold insert_one. rewrite H. simpl.
    repeat split; lia.
Qed.
End insert_loop_more.

(** X13: when no call to the store raises, the count reported is the size of
    the batch and no error is printed; when every call raises, the count is
    zero, one error is printed for each chunk and the store is as it was. *)
Theorem insert_observations_uniform (DB : Type) (w : store DB) (db0 : DB)
    (chunks : list chunk) (st : insertion DB) :
  insert_observations w db0 chunks false = Some st ->
  ((forall d r, execute w d r <> None) ->
   inserted st = Z.of_nat (length chunks) /\ errors st = 0)
  /\ ((forall d r, execute w d r = None) ->
      inserted st = 0%Z /\ errors st = length chunks /\ db st = db0).
Proof.
  intros [= <-]. split; intros H.
  - destruct (insert_loop_all_ok w chunks
                {| db := db0; inserted := 0; attempted := []; errors := 0 |} H)
      as [H1 H2].
    rewrite H1, H2. simpl. split; [lia|done].
  - destruct (insert_loop_all_fail w chunks
                {| db := db0; inserted := 0; attempted := []; errors := 0 |} H)
      as (H1 & H2 & H3).
    rewrite H1, H2, H3. done.
Qed.

Lemma insert_observations_uniform_witness :
  (exists st,
      insert_observations accepting_store [] sample_batch false = Some st
      /\ inserted st = 3%Z /\ errors st = 0)
  /\ (exists st,
         insert_observations refusing_store [] sample_batch false = Some st
         /\ inserted st = 0%Z /\ errors st = 3 /\ db st = []).
Proof.
  split.
  - eexists. split; [reflexivity|].
    apply (insert_observations_uniform _ accepting_store [] sample_batch _
             eq_refl).
    intros d r. discriminate.
  - eexists. split; [reflexivity|].
    apply (insert_observations_uniform _ refusing_store [] sample_batch _
             eq_refl).
    intros d r. reflexivity.
Defined.



(** * Further properties: the window of the tag rule, totals *)

(** X15: the rule of the knowledge-graph-context tag fires exactly when the
    opening tag starts at one of the indices 0 to 75, that is, lies wholly
    within the first 100 characters. *)
Theorem kgc_tag_rule_window (text : str) :
  kgc_tag_rule text = true
  <-> exists i, i <= 75 /\ occurs_at KGC_OPEN text i.
Proof.
  unfold kgc_tag_rule. split.
  - intros H. apply contains_occurs in H as (i & Hi & Hl).
    rewrite length_take in Hl. change (length KGC_OPEN) with 25 in Hl.
    exists i. split; [lia|].
    apply (occurs_at_take KGC_OPEN text i 100) in Hi; [done|].
    change (length KGC_OPEN) with 25. lia.
  - intros (i & Hi & Ho). apply (occurs_contains _ _ i).
    apply occurs_at_take; [|done]. change (length KGC_OPEN) with 25. lia.
Qed.

Lemma join_snoc (sep p : str) (l : list str) :
  l <> [] -> join sep (l ++ [p]) = join sep l ++ sep ++ p.
Proof.
  induction l as [|x l IH]; [done|]. intros _.
  destruct l as [|y l]; [done|].
  rewrite <- app_comm_cons, (join_cons sep x ((y :: l) ++ [p])) by done.
  rewrite IH by done. rewrite (join_cons sep x (y :: l)) by done.
  by rewrite <- !app_assoc.
Qed.

Lemma total_length_snoc (chunks : list chunk) (c : chunk) :
  total_length (chunks ++ [c]) = total_length chunks + length c.1.
Proof.
  unfold total_length. rewrite map_app, list_sum_app. simpl. lia.
Qed.

Lemma chunk_loop_total (source : str) (chunk_size : Z) (ps done : list str)
    (chunks : list chunk) (current : str) :
  (done = [] -> chunks = [] /\ current = []) ->
  total_length chunks + length current <= length (join PARA_SEP done) ->
  total_length (fold_left (chunk_step source chunk_size) ps (chunks, current)).1
  + length (fold_left (chunk_step source chunk_size) ps (chunks, current)).2
  <= length (join PARA_SEP (done ++ ps)).
Proof.
  revert done chunks current.
  induction ps as [|p ps IH]; intros done chunks current H0 H.
  - by rewrite app_nil_r.
  - cbn [fold_left]. rewrite chunk_step_eq.
    replace (done ++ p :: ps) with ((done ++ [p]) ++ ps)
      by (by rewrite <- app_assoc).
    destruct done as [|d done].
    + destruct (H0 eq_refl) as [-> ->]. cbn [truthy].
      rewrite andb_false_r. apply IH; [done|]. simpl. lia.
    + destruct ((len current + len p + 2 >? chunk_size)%Z && truthy current).
      * apply IH; [by destruct done|]. rewrite join_snoc by done.
        rewrite total_length_snoc, !length_app. cbn [fst].
        pose proof (strip_length current). lia.
      * apply IH; [by destruct done|]. rewrite join_snoc by done.
        cbn [fst snd]. rewrite !length_app.
        destruct (truthy current); [rewrite !length_app|]; lia.
Qed.

(** X16: the chunks never hold more characters than the text they were made
    from: the lengths of the chunk texts add up to at most the length of the
    input. *)
Theorem chunk_text_total (text source : str) (chunk_size : Z) :
  total_length (chunk_text text source chunk_size) <= length text.
Proof.
  rewrite chunk_text_eq. destruct (len text <=? chunk_size)%Z.
  - unfold total_length. simpl. lia.
  - pose proof (chunk_loop_total source chunk_size (split_paragraphs text)
                  [] [] [] (fun _ => conj eq_refl eq_refl)) as H.
    simpl app in H. rewrite join_split_paragraphs in H.
    specialize (H ltac:(simpl; lia)).
    unfold chunk_flush. destruct (fold_left _ _ _) as [chunks current].
    cbn [fst snd] in *. destruct (truthy (strip current)); [|lia].
    rewrite total_length_snoc. cbn [fst].
    pose proof (strip_length current). lia.
Qed.


